(** * fxx: type-level and value-level algorithms over std::tuple

    A shallow embedding of the header-only library [fxx]:

    - [fxx/meta/indices.h]   index sequences              (Module [indices])
    - [fxx/meta/functional.h] template predicates         (Module [functional])
    - [fxx/meta/tuple.h]     type-level tuple algorithms  (Module [meta])
    - [fxx/meta/detect.h]    the detection idiom          (Module [detect])
    - [fxx/meta/op.h]        operator traits, both header variants
                                                          (Modules [op], [optrait])
    - [fxx/tuple/*.h]        value-level tuple algorithms (Module [tuple])

    A C++ type is a term of [ty]; a [std::tuple<Ts...>] type is the list of
    its element types; a template instantiation that may fail to substitute
    returns an [option].  A tuple object is the list of its elements, each
    with its kind and either the object it owns or the address it aliases. *)

From Equations Require Import Equations.
From stdpp Require Import base numbers option list strings.

Set Default Proof Using "Type".
Local Open Scope N_scope.

(** ** std::size_t *)

(** [std::size_t] is an unsigned 64-bit integer on the LP64 targets the
    library is built for.  Arithmetic on template arguments of that type is
    modular; the reduction is written out wherever the source computes on
    arguments that no tuple size bounds ([N + Shift], [N * Scale],
    [tuple_size_v<Tuple> - N]). *)
Definition size_t : Type := N.

Definition SIZE_WIDTH : N := 64.
Definition SIZE_MODULUS : N := 2 ^ SIZE_WIDTH.

Definition size_add (a b : size_t) : size_t := (a + b) mod SIZE_MODULUS.
Definition size_mul (a b : size_t) : size_t := (a * b) mod SIZE_MODULUS.
Definition size_sub (a b : size_t) : size_t :=
  Z.to_N ((Z.of_N a - Z.of_N b) mod Z.of_N SIZE_MODULUS).

(** ** C++ types *)

(** [Named] covers fundamental types and classes by name; references and
    class template specialisations are structural. *)
#[warnings="-register-all"]
Inductive ty : Type :=
| Named (name : string)
| LRef (t : ty)                           (* T&  *)
| RRef (t : ty)                           (* T&& *)
| Inst (template : string) (args : list ty).  (* Template<Args...> *)

Definition StdTuple (ts : list ty) : ty := Inst "std::tuple" ts.

Definition int : ty := Named "int".
Definition short : ty := Named "short".
Definition long : ty := Named "long".
Definition ushort : ty := Named "ushort".
Definition char : ty := Named "char".
Definition bool_t : ty := Named "bool".
Definition void : ty := Named "void".

(** The ownership category of an element kind (spec, section 3). *)
Inductive ownership : Type := OwnedValue | MutableReference | TransientReference.

Definition category (k : ty) : ownership :=
  match k with
  | LRef _ => MutableReference
  | RRef _ => TransientReference
  | _ => OwnedValue
  end.

(** [std::is_same]. *)
Fixpoint is_same (a b : ty) {struct a} : bool :=
  match a, b with
  | Named s, Named s' => bool_decide (s = s')
  | LRef a', LRef b' => is_same a' b'
  | RRef a', RRef b' => is_same a' b'
  | Inst c ts, Inst c' ts' =>
      bool_decide (c = c') &&
      (fix all_same (l l' : list ty) {struct l} : bool :=
         match l, l' with
         | [], [] => true
         | x :: r, y :: r' => is_same x y && all_same r r'
         | _, _ => false
         end) ts ts'
  | _, _ => false
  end.

(** [std::tuple_size_v] and [std::tuple_element_t] / [std::get]: an index
    past the end does not compile. *)
Definition tuple_size_v {A} (Tuple : list A) : size_t := N.of_nat (length Tuple).
Definition tuple_element_t {A} (I : size_t) (Tuple : list A) : option A :=
  Tuple !! N.to_nat I.

(** ** fxx/meta/indices.h *)
Module indices.

(** [std::make_index_sequence<Length>] is [0, 1, ..., Length-1]. *)
Definition make_index_sequence (Length : size_t) : list size_t :=
  N.of_nat <$> seq 0 (N.to_nat Length).

Definition apply_index_sequence_t {T} (Target : list size_t → T) (Seq : list size_t) : T :=
  Target Seq.

Definition map_index_sequence_t (Fn : size_t → size_t) (Seq : list size_t) : list size_t :=
  Fn <$> Seq.

Definition shift_index_impl (Shift : size_t) (n : size_t) : size_t := size_add n Shift.
Definition scale_index_impl (Scale : size_t) (n : size_t) : size_t := size_mul n Scale.

Definition shift_index_sequence_t (Shift : size_t) (Seq : list size_t) : list size_t :=
  map_index_sequence_t (shift_index_impl Shift) Seq.

Definition scale_index_sequence_t (Scale : size_t) (Seq : list size_t) : list size_t :=
  map_index_sequence_t (scale_index_impl Scale) Seq.

Definition make_index_range (Start Length : size_t) : list size_t :=
  shift_index_sequence_t Start (make_index_sequence Length).

End indices.

(** ** fxx/meta/functional.h *)
Module functional.

Definition identity (T : ty) (Rest : list ty) : ty := T.
Definition tautology (Args : list ty) : bool := true.
Definition contradiction (Args : list ty) : bool := false.
Definition constant (T : ty) (Args : list ty) : ty := T.

(** [partial<Target, First...>::type<Last...> = Target<First..., Last...>]. *)
Definition partial {R} (Target : list ty → R) (First Last : list ty) : R :=
  Target (First ++ Last).

(** [any_impl]: the trivial case on no argument, the recursive case through
    [std::conditional_t] on [Pred<Head>::value]. *)
Fixpoint any_impl (Pred : ty → bool) (Args : list ty) : bool :=
  match Args with
  | [] => false
  | Head :: Tail => if Pred Head then true else any_impl Pred Tail
  end.

Definition any (Pred : ty → bool) (Args : list ty) : bool := any_impl Pred Args.
Definition any_v (Pred : ty → bool) (Args : list ty) : bool := any Pred Args.

Fixpoint all_impl (Pred : ty → bool) (Args : list ty) : bool :=
  match Args with
  | [] => true
  | Head :: Tail => if Pred Head then all_impl Pred Tail else false
  end.

Definition all (Pred : ty → bool) (Args : list ty) : bool := all_impl Pred Args.
Definition all_v (Pred : ty → bool) (Args : list ty) : bool := all Pred Args.

End functional.

(** ** fxx/meta/tuple.h *)
Module meta.

Definition make_tuple_t (Ts : list ty) : list ty := Ts.

Definition apply_t {T} (Target : list ty → T) (Tuple : list ty) : T := Target Tuple.

Record index_helper : Type := IndexHelper { value : bool; index : size_t }.

(** [first_impl]: the abort case on the 0-tuple, the recursive case on
    [std::tuple<Head, Tail...>]. *)
Fixpoint first_impl (Pred : ty → bool) (Offset : size_t) (Tuple : list ty) : index_helper :=
  match Tuple with
  | [] => IndexHelper false Offset
  | Head :: Tail =>
      if Pred Head then IndexHelper true Offset
      else first_impl Pred (size_add Offset 1) Tail
  end.

Definition first (Pred : ty → bool) (Tuple : list ty) : index_helper :=
  first_impl Pred 0 Tuple.

(** [find<T, Tuple> = first<partial<std::is_same, T>::type, Tuple>]. *)
Definition find (T : ty) (Tuple : list ty) : index_helper :=
  first (is_same T) Tuple.

(** [tuple_cat_impl]: two abort cases, and the recursive case that merges the
    two leading tuples. *)
Equations? tuple_cat_impl (Tuples : list (list ty)) : list ty
  by wf (length Tuples) lt :=
  tuple_cat_impl [] := [];
  tuple_cat_impl [Ts] := Ts;
  tuple_cat_impl (Ls :: Rs :: Rest) := tuple_cat_impl ((Ls ++ Rs) :: Rest).
Proof. simpl. lia. Qed.

Definition tuple_cat_t (Tuples : list (list ty)) : list ty := tuple_cat_impl Tuples.

Fixpoint tuple_flip_impl (Tuple : list ty) : list ty :=
  match Tuple with
  | Head :: Ts =>
      let prefix := tuple_flip_impl Ts in
      tuple_cat_impl [prefix; [Head]]
  | [] => []
  end.

Definition tuple_flip_t (Tuple : list ty) : list ty := tuple_flip_impl Tuple.

Fixpoint tuple_pick_impl (Tuple : list ty) (Ns : list size_t) : option (list ty) :=
  match Ns with
  | Head :: Tail =>
      suffix ← tuple_pick_impl Tuple Tail;
      e ← tuple_element_t Head Tuple;
      Some (tuple_cat_impl [[e]; suffix])
  | [] => Some []
  end.

Definition tuple_pick_t (Tuple : list ty) (Ns : list size_t) : option (list ty) :=
  tuple_pick_impl Tuple Ns.

Equations? tuple_dup_impl (n : size_t) (Tuple : list ty) : list ty
  by wf (N.to_nat n) lt :=
  tuple_dup_impl N0 Tuple := [];
  tuple_dup_impl (Npos p) Tuple :=
    let suffix := tuple_dup_impl (Npos p - 1) Tuple in
    tuple_cat_impl [Tuple; suffix].
Proof. lia. Qed.

Definition tuple_dup_t (n : size_t) (Tuple : list ty) : list ty := tuple_dup_impl n Tuple.

(** [tuple_skip_one] and [tuple_take_one] have no member [type] on the
    0-tuple: the fallback specialisations are commented out in the header. *)
Definition tuple_skip_one (Tuple : list ty) : option (list ty) :=
  match Tuple with
  | Head :: Tail => Some Tail
  | [] => None
  end.

Equations? tuple_skip_impl (n : size_t) (Tuple : list ty) : option (list ty)
  by wf (N.to_nat n) lt :=
  tuple_skip_impl N0 Tuple := Some Tuple;
  tuple_skip_impl (Npos p) Tuple :=
    prefix ← tuple_skip_one Tuple;
    tuple_skip_impl (Npos p - 1) prefix.
Proof. lia. Qed.

Definition tuple_skip_t (Skip : size_t) (Tuple : list ty) : option (list ty) :=
  tuple_skip_impl Skip Tuple.

Definition tuple_take_one (Tuple : list ty) : option (list ty) :=
  match Tuple with
  | Head :: Tail => Some [Head]
  | [] => None
  end.

Equations? tuple_take_impl (n : size_t) (Tuple : list ty) : option (list ty)
  by wf (N.to_nat n) lt :=
  tuple_take_impl N0 Tuple := Some [];
  tuple_take_impl (Npos p) Tuple :=
    prefix ← tuple_take_one Tuple;
    suffix ← tuple_skip_one Tuple;
    rest ← tuple_take_impl (Npos p - 1) suffix;
    Some (tuple_cat_impl [prefix; rest]).
Proof. lia. Qed.

Definition tuple_take_t (Take : size_t) (Tuple : list ty) : option (list ty) :=
  tuple_take_impl Take Tuple.

Definition tuple_slice_t (Start Length : size_t) (Tuple : list ty) : option (list ty) :=
  skipped ← tuple_skip_t Start Tuple;
  tuple_take_t Length skipped.

Definition tuple_map_impl (Fn : ty → ty) (Tuple : list ty) : list ty := Fn <$> Tuple.
Definition tuple_map_t (Fn : ty → ty) (Tuple : list ty) : list ty := tuple_map_impl Fn Tuple.

(** [tuple_reduce_impl]: the abort case is [N = 1].  At [N = 0] the recursive
    case asks for [std::tuple_element_t<N-1, Tuple>] with [N-1] wrapped
    around, which no tuple has. *)
Equations? tuple_reduce_impl (Fn : ty → ty → ty) (n : size_t) (Tuple : list ty) : option ty
  by wf (N.to_nat n) lt :=
  tuple_reduce_impl Fn n Tuple with decide (n = 1) := {
    | left _ := tuple_element_t 0 Tuple
    | right _ with decide (n = 0) := {
      | left _ := None
      | right _ :=
          pred ← tuple_reduce_impl Fn (n - 1) Tuple;
          cur ← tuple_element_t (n - 1) Tuple;
          Some (Fn pred cur) } }.
Proof. lia. Qed.

Definition tuple_reduce_t (Fn : ty → ty → ty) (Tuple : list ty) : option ty :=
  tuple_reduce_impl Fn (tuple_size_v Tuple) Tuple.

Definition tuple_fold_t (Fn : ty → ty → ty) (Init : ty) (Tuple : list ty) : option ty :=
  tuple_reduce_t Fn (tuple_cat_t [[Init]; Tuple]).

(** [tuple_filter_impl]: the abort case is [N = 0]; the recursive case
    appends [std::tuple<cur>] or [std::tuple<>] to the filtered prefix. *)
Equations? tuple_filter_impl (Pred : ty → bool) (n : size_t) (Tuple : list ty)
  : option (list ty) by wf (N.to_nat n) lt :=
  tuple_filter_impl Pred N0 Tuple := Some [];
  tuple_filter_impl Pred (Npos p) Tuple :=
    pred ← tuple_filter_impl Pred (Npos p - 1) Tuple;
    cur ← tuple_element_t (Npos p - 1) Tuple;
    let flt := if Pred cur then [cur] else [] in
    Some (tuple_cat_impl [pred; flt]).
Proof. lia. Qed.

Definition tuple_filter_t (Pred : ty → bool) (Tuple : list ty) : option (list ty) :=
  tuple_filter_impl Pred (tuple_size_v Tuple) Tuple.

(** The header's version 0.3 names the left fold [tuple_foldl_t] and has a
    right fold beside it. *)
Definition tuple_foldl_t (Fn : ty → ty → ty) (Init : ty) (Tuple : list ty) : option ty :=
  tuple_reduce_t Fn (tuple_cat_t [[Init]; Tuple]).

Definition tuple_foldr_t (Fn : ty → ty → ty) (Init : ty) (Tuple : list ty) : option ty :=
  tuple_foldl_t Fn Init (tuple_flip_t Tuple).

End meta.

(** ** fxx/meta/detect.h and fxx/cxx/is_nothrow_convertible.h *)
Module detect.

(** An alias template [Op<Args...>]: its instantiation, or a substitution
    failure. *)
Definition template : Type := list ty → option ty.

Definition nonesuch : ty := Named "fxx::meta::detail::nonesuch".

(** [std::void_t<Ts...>] is [void] when every argument is well-formed. *)
Definition void_t (Ts : list (option ty)) : option ty :=
  _ ← mapM id Ts; Some void.

Record detect_impl_t : Type := DetectImpl { value_t : bool; type : ty }.

(** The partial specialisation
    [detect_impl<Default, std::void_t<Op<Args...>>, Op, Args...>] is chosen
    when its second argument substitutes and is the argument passed for the
    unnamed parameter; otherwise the primary template is. *)
Definition detect_impl (Default Enable : ty) (Op : template) (Args : list ty)
  : detect_impl_t :=
  match void_t [Op Args], Op Args with
  | Some pattern, Some instance =>
      if is_same pattern Enable then DetectImpl true instance
      else DetectImpl false Default
  | _, _ => DetectImpl false Default
  end.

Definition is_detected (Op : template) (Args : list ty) : bool :=
  value_t (detect_impl nonesuch void Op Args).

Definition detected_or_t (Default : ty) (Op : template) (Args : list ty) : ty :=
  type (detect_impl Default void Op Args).

Definition detected_t (Op : template) (Args : list ty) : ty :=
  detected_or_t nonesuch Op Args.

Definition is_detected_exact (T : ty) (Op : template) (Args : list ty) : bool :=
  is_same (detected_t Op Args) T.

Section conversions.
(** The compiler's answers: [std::is_convertible<From, To>] and
    [noexcept(static_cast<To>(std::declval<From>()))]. *)
Context (std_is_convertible : ty → ty → bool).
Context (noexcept_static_cast : ty → ty → bool).

(** The C++17 backport of [std::is_nothrow_convertible]. *)
Definition is_nothrow_convertible_impl (From To : ty) (convertible : bool) : bool :=
  if convertible then noexcept_static_cast From To else false.

Definition std_is_nothrow_convertible (From To : ty) : bool :=
  is_nothrow_convertible_impl From To (std_is_convertible From To).

Definition is_detected_convertible (To : ty) (Op : template) (Args : list ty) : bool :=
  std_is_convertible (detected_t Op Args) To.

Definition is_detected_nothrow_convertible (To : ty) (Op : template) (Args : list ty) : bool :=
  std_is_nothrow_convertible (detected_t Op Args) To.
End conversions.

End detect.

(** ** The operator catalog shared by both variants of fxx/meta/op.h *)

Inductive operator : Type :=
| plus | inc | postinc | minus | dec | postdec | multiplies | divides | modulus
| negate | promote
| equal_to | not_equal_to | greater | less | greater_equal | less_equal
| logical_and | logical_or | logical_not
| bit_and | bit_or | bit_xor | bit_not | bit_left_shift | bit_right_shift
| deref | addr_of
| subscript | call.

Inductive operator_shape : Type := Unary | Binary | Subscript | Call.

(** Which helper macro declares the operator. *)
Definition shape (o : operator) : operator_shape :=
  match o with
  | inc | postinc | dec | postdec | negate | promote | logical_not | bit_not
  | deref | addr_of => Unary
  | subscript => Subscript
  | call => Call
  | _ => Binary
  end.

(** The language itself: the type of an operator expression over
    [std::declval] operands of the given kinds, if it is well-formed; whether
    that expression is [noexcept]; [std::is_convertible<From, To>]; and
    [noexcept(static_cast<To>(std::declval<From>()))]. *)
Record language : Type := Language {
  decltype_expr : operator → list ty → option ty;
  noexcept_expr : operator → list ty → bool;
  std_is_convertible : ty → ty → bool;
  noexcept_static_cast : ty → ty → bool
}.

(** The alias template [name_t]: unary operators take one kind, binary
    operators default [Rhs] to [Lhs], subscript takes two, call takes the
    target and any number of arguments. *)
Definition name_t (L : language) (o : operator) : detect.template :=
  λ Args,
    match shape o, Args with
    | Unary, [Arg] => decltype_expr L o [Arg]
    | Binary, [Lhs] => decltype_expr L o [Lhs; Lhs]
    | Binary, [Lhs; Rhs] => decltype_expr L o [Lhs; Rhs]
    | Subscript, [T; Sub] => decltype_expr L o [T; Sub]
    | Call, T :: CallArgs => decltype_expr L o (T :: CallArgs)
    | _, _ => None
    end.

(** ** fxx/meta/op.h, the [has_op_*] variant *)
Module op.
Section op.
Context (L : language).

Definition has_op (o : operator) (Operands : list ty) : bool :=
  detect.is_detected (name_t L o) Operands.

Definition has_op_exact (o : operator) (T : ty) (Operands : list ty) : bool :=
  detect.is_detected_exact T (name_t L o) Operands.

Definition has_op_convertible (o : operator) (To : ty) (Operands : list ty) : bool :=
  detect.is_detected_convertible (std_is_convertible L) To (name_t L o) Operands.

Definition has_op_nothrow_convertible (o : operator) (To : ty) (Operands : list ty) : bool :=
  detect.is_detected_nothrow_convertible
    (std_is_convertible L) (noexcept_static_cast L) To (name_t L o) Operands.

Definition has_op_call (T : ty) (Args : list ty) : bool := has_op call (T :: Args).
End op.
End op.

(** ** fxx/meta/op.h, the [op_*] trait variant *)
Module optrait.
Section optrait.
Context (L : language).

Record operator_trait : Type := OperatorTrait {
  arity : size_t;
  operand_types : list ty;
  result_type : option ty;
  is_detected : bool;
  is_nothrow : bool;
  is_convertible : ty → bool;
  is_nothrow_convertible : ty → bool
}.

Definition operator_base (Operands : list ty) : operator_trait :=
  {| arity := N.of_nat (length Operands);
     operand_types := Operands;
     result_type := None;
     is_detected := false;
     is_nothrow := false;
     is_convertible := λ _, false;
     is_nothrow_convertible := λ _, false |}.

(** [operator_info<Result, Operands...>] overrides [is_detected] and the two
    convertibility members; these read
    [std::is_convertible_v<To, result_type>] and
    [std::is_nothrow_convertible_v<To, result_type>]. *)
Definition operator_info (Result : ty) (Operands : list ty) : operator_trait :=
  let base := operator_base Operands in
  {| arity := arity base;
     operand_types := operand_types base;
     result_type := Some Result;
     is_detected := true;
     is_nothrow := is_nothrow base;
     is_convertible := λ To, std_is_convertible L To Result;
     is_nothrow_convertible := λ To,
       detect.std_is_nothrow_convertible
         (std_is_convertible L) (noexcept_static_cast L) To Result |}.

Definition with_is_nothrow (b : bool) (t : operator_trait) : operator_trait :=
  {| arity := arity t;
     operand_types := operand_types t;
     result_type := result_type t;
     is_detected := is_detected t;
     is_nothrow := b;
     is_convertible := is_convertible t;
     is_nothrow_convertible := is_nothrow_convertible t |}.

(** [op_name<Operands..., Enable>] for the operators declared by
    [FXX_META_OP_UNOP_T], [FXX_META_OP_UNOP2_T] and [FXX_META_OP_BINOP_T], and
    [op_subscript]: the specialisation on
    [std::void_t<name_t<Operands...>>] derives from [operator_info]. *)
Definition op_impl (o : operator) (Operands : list ty) (Enable : ty) : operator_trait :=
  match detect.void_t [name_t L o Operands], name_t L o Operands with
  | Some pattern, Some Result =>
      if is_same pattern Enable
      then with_is_nothrow (noexcept_expr L o Operands) (operator_info Result Operands)
      else operator_base Operands
  | _, _ => operator_base Operands
  end.

(** The default arguments: [Rhs = Lhs] for a binary operator, [Enable = void]. *)
Definition op (o : operator) (Operands : list ty) : operator_trait :=
  match shape o, Operands with
  | Binary, [Lhs] => op_impl o [Lhs; Lhs] void
  | _, _ => op_impl o Operands void
  end.

Record call_trait : Type := CallTrait {
  trait : operator_trait;
  target_type : ty;
  argument_types : list ty;
  argument_count : size_t
}.

(** [detail::op_call_impl<Ops, Enable>].  The specialisation is declared on
    [<std::tuple<Target, Args...>, call_t<Target, Args...>>]: its second
    argument is the call's result type itself, and its base is
    [operator_info<op_call_impl<Target, Args...>, Target, Args...>], a
    template-id that takes at most two arguments.  [None] is a failed
    instantiation. *)
Definition op_call_impl (Ops : list ty) (Enable : ty) : option call_trait :=
  let primary :=
    target ← tuple_element_t 0 Ops;
    arguments ← meta.tuple_skip_t 1 Ops;
    Some {| trait := meta.apply_t operator_base Ops;
            target_type := target;
            argument_types := arguments;
            argument_count := tuple_size_v arguments |} in
  match Ops with
  | Target :: Args =>
      match name_t L call (Target :: Args) with
      | Some pattern =>
          if is_same pattern Enable then
            if decide (length (Target :: Args) ≤ 2)%nat then
              Some {| trait :=
                        with_is_nothrow (noexcept_expr L call (Target :: Args))
                          (operator_info
                             (Inst "fxx::meta::detail::op_call_impl" (Target :: Args))
                             (Target :: Args));
                      target_type := Target;
                      argument_types := Args;
                      argument_count := N.of_nat (length Args) |}
            else None
          else primary
      | None => primary
      end
  | [] => primary
  end.

Definition op_call (Target : ty) (Args : list ty) : option call_trait :=
  op_call_impl (Target :: Args) void.
End optrait.
End optrait.

(** ** fxx/tuple/*.h *)
Module tuple.

(** Every functor takes its tuple by forwarding reference and names
    [std::tuple_size_v<Tuple>] or [std::tuple_element_t<I, Tuple>], which need
    [Tuple] to be the tuple type itself: the model is of a call on an rvalue
    tuple, [f(std::forward<decltype(t)>(t))], as every test makes it.  Moving
    an owned element out of the tuple is modelled as copying it: that is what
    the code does for the kinds of every result, for reference elements, and
    for an owned element that a call reads once.  Where a call reads an owned
    element again ([pick_f] with a repeated index, [dup_f] beyond one copy) it
    finds the object moved-from, which the model does not describe; the
    properties of those functors are stated for kinds, for references and for
    elements read once. *)

(** *** Tuple objects *)

Definition addr : Type := N.

(** An element either owns an object or aliases storage owned elsewhere. *)
Inductive storage (V : Type) : Type :=
| Holds (v : V)
| Refers (a : addr).
Arguments Holds {V} v.
Arguments Refers {V} a.

Record element (V : Type) : Type := Element { kind : ty; slot : storage V }.
Arguments Element {V} kind slot.
Arguments kind {V} e.
Arguments slot {V} e.

(** The tuple type a tuple object has: [Tuple] in the functors below. *)
Definition kinds {V} (tuple : list (element V)) : list ty := kind <$> tuple.

(** [std::addressof(std::get<I>(t))] for a reference element: the storage it
    aliases.  An owned element lives inside the tuple object. *)
Definition address_of {V} (e : element V) : option addr :=
  match slot e with
  | Refers a => Some a
  | Holds _ => None
  end.

(** [std::get<I>(std::forward<Tuple>(tuple))]. *)
Definition get {A} (I : size_t) (tuple : list A) : option A := tuple !! N.to_nat I.

(** [std::tuple<K>(x)]: a reference kind binds to the storage [x] designates,
    an owned kind is constructed from the object [x] holds.  The library only
    writes it with [K] the kind of [x]. *)
Definition std_tuple1 {V} (K : ty) (x : element V) : list (element V) :=
  [Element K (slot x)].

(** [std::tuple_cat]: the elements of all arguments, in order, each forwarded
    with its kind. *)
Definition std_tuple_cat {A} (tuples : list (list A)) : list A := concat tuples.

(** [std::make_tuple]. *)
Definition std_make_tuple {A} (xs : list A) : list A := xs.

Section restructuring.
Context {V : Type}.
Implicit Types tuple : list (element V).

(** pick.h *)
Fixpoint pick_f (Ns : list size_t) tuple : option (list (element V)) :=
  match Ns with
  | Head :: Tail =>
      K ← tuple_element_t Head (kinds tuple);
      x ← get Head tuple;
      rest ← pick_f Tail tuple;
      Some (std_tuple_cat [std_tuple1 K x; rest])
  | [] => Some []
  end.

Definition pick (Ns : list size_t) tuple : option (list (element V)) := pick_f Ns tuple.

(** flip.h: [flip_f::operator()<Tuple, N>]. *)
Equations? flip_f_call (n : size_t) tuple : option (list (element V))
  by wf (N.to_nat n) lt :=
  flip_f_call N0 tuple := Some [];
  flip_f_call (Npos p) tuple :=
    K ← tuple_element_t (Npos p - 1) (kinds tuple);
    x ← get (Npos p - 1) tuple;
    rest ← flip_f_call (Npos p - 1) tuple;
    Some (std_tuple_cat [std_tuple1 K x; rest]).
Proof. lia. Qed.

Definition flip_f tuple : option (list (element V)) :=
  flip_f_call (tuple_size_v (kinds tuple)) tuple.

Definition flip tuple : option (list (element V)) := flip_f tuple.

(** dup.h *)
Equations? dup_f (n : size_t) tuple : list (element V) by wf (N.to_nat n) lt :=
  dup_f N0 tuple := [];
  dup_f (Npos p) tuple := std_tuple_cat [tuple; dup_f (Npos p - 1) tuple].
Proof. lia. Qed.

Definition dup (n : size_t) tuple : list (element V) := dup_f n tuple.

(** skip.h *)
Definition skip_f (n : size_t) tuple : option (list (element V)) :=
  let idx_range_t :=
    indices.make_index_range n (size_sub (tuple_size_v (kinds tuple)) n) in
  let pick_f_t := indices.apply_index_sequence_t pick_f idx_range_t in
  pick_f_t tuple.

Definition skip (n : size_t) tuple : option (list (element V)) := skip_f n tuple.

(** take.h *)
Definition take_f (n : size_t) tuple : option (list (element V)) :=
  let idx_seq_t := indices.make_index_sequence n in
  let pick_f_t := indices.apply_index_sequence_t pick_f idx_seq_t in
  pick_f_t tuple.

Definition take (n : size_t) tuple : option (list (element V)) := take_f n tuple.

(** slice.h *)
Definition slice_f (Start Length : size_t) tuple : option (list (element V)) :=
  let idx_range_t := indices.make_index_range Start Length in
  let pick_f_t := indices.apply_index_sequence_t pick_f idx_range_t in
  pick_f_t tuple.

Definition slice (Start Length : size_t) tuple : option (list (element V)) :=
  slice_f Start Length tuple.
End restructuring.

Section transforming.
(** [A] is what [std::get] hands to the user function and what the function
    returns; [S] is whatever state the function reads and writes. *)
Context {A S : Type}.
Implicit Types (tuple : list A) (fn : A → A → S → A * S) (s : S).

(** reduce.h: [detail::reduce_impl<N>::reduce], abort case [N = 1]; the
    recursive case carries [static_assert(N > 0)]. *)
Equations? reduce_impl (n : size_t) fn tuple s : option (A * S)
  by wf (N.to_nat n) lt :=
  reduce_impl n fn tuple s with decide (n = 1) := {
    | left _ := x ← get 0 tuple; Some (x, s)
    | right _ with decide (n = 0) := {
      | left _ := None
      | right _ :=
          '(acc, s') ← reduce_impl (n - 1) fn tuple s;
          x ← get (n - 1) tuple;
          Some (fn acc x s') } }.
Proof. lia. Qed.

Definition reduce_f fn tuple s : option (A * S) :=
  reduce_impl (tuple_size_v tuple) fn tuple s.

Definition reduce fn tuple s : option (A * S) := reduce_f fn tuple s.

(** fold.h: [detail::fold_impl<N>::fold], abort case [N = 0]. *)
Equations? fold_impl (n : size_t) fn (init : A) tuple s : option (A * S)
  by wf (N.to_nat n) lt :=
  fold_impl N0 fn init tuple s := Some (init, s);
  fold_impl (Npos p) fn init tuple s :=
    '(acc, s') ← fold_impl (Npos p - 1) fn init tuple s;
    x ← get (Npos p - 1) tuple;
    Some (fn acc x s').
Proof. lia. Qed.

Definition fold_f fn (init : A) tuple s : option (A * S) :=
  fold_impl (tuple_size_v tuple) fn init tuple s.

Definition fold fn (init : A) tuple s : option (A * S) := fold_f fn init tuple s.
End transforming.

(** A user function without side effects. *)
Definition pure_fn {A} (f : A → A → A) : A → A → unit → A * unit :=
  λ x y s, (f x y, s).

Section searching.
Context {A : Type}.
Implicit Types (tuple : list A) (Pred : A → bool).

(** What [first] returns: [std::nullopt] of type [std::nullopt_t], or a
    [std::optional<std::size_t>]. *)
Inductive first_result : Type :=
| Nullopt
| Optional (o : option size_t).

Definition static_type (r : first_result) : ty :=
  match r with
  | Nullopt => Named "std::nullopt_t"
  | Optional _ => Inst "std::optional" [Named "std::size_t"]
  end.

(** The implicit conversion to the declared return type
    [std::optional<std::size_t>]. *)
Definition to_optional (r : first_result) : option size_t :=
  match r with
  | Nullopt => None
  | Optional o => o
  end.

(** first.h: the two [detail::first_impl<Offset>] overloads, told apart by
    [std::enable_if_t] on [std::tuple_size_v<Tuple> <= Offset].  In the
    second one [Offset] is below the tuple size, so [std::get<Offset>] is in
    range (its [None] case does not arise) and [Offset + 1] does not wrap.
    The recursive call's result converts to the declared return type. *)
Equations? first_impl (Offset : size_t) Pred tuple : first_result
  by wf (length tuple - N.to_nat Offset)%nat lt :=
  first_impl Offset Pred tuple with decide (tuple_size_v tuple ≤ Offset) := {
    | left _ := Nullopt
    | right _ with get Offset tuple := {
      | Some x with Pred x := {
        | true := Optional (Some Offset)
        | false := Optional (to_optional (first_impl (Offset + 1) Pred tuple)) }
      | None := Nullopt } }.
Proof. unfold tuple_size_v in *. lia. Qed.

Definition first_f Pred tuple : first_result := first_impl 0 Pred tuple.

Definition first Pred tuple : first_result := first_f Pred tuple.

(** find.h: the lambda compares [value == x]. *)
Definition find_f (equal_to : A → A → bool) (value : A) tuple : first_result :=
  first (λ x, equal_to value x) tuple.

Definition find (equal_to : A → A → bool) (value : A) tuple : first_result :=
  find_f equal_to value tuple.
End searching.

End tuple.

(** ** The two forms of a restructuring operation, side by side *)





(** ** Reading an owned element more than once *)

(** The functors read their argument through
    [std::get<I>(std::forward<Tuple>(tuple))].  For a reference element that
    yields the reference; for an owned element it moves the object out, and a
    second read of the same element finds what the move left behind.
    [reads_owned_once Ns t]: no index in [Ns] that names an owned element of
    [t] occurs twice, so that every read finds the element as it was. *)
Definition reads_owned_once {V} (Ns : list size_t) (t : list (tuple.element V)) : Prop :=
  ∀ (j k : nat) (i : size_t) (e : tuple.element V),
    Ns !! j = Some i → Ns !! k = Some i →
    tuple.get i t = Some e → tuple.address_of e = None → j = k.

(** ** The specification's left-associative combination *)

(** [fn(fn(fn(seq[0], seq[1]), seq[2]), ...)], the calls made in that order. *)
Definition left_assoc {A S} (fn : A → A → S → A * S) (seq0 : A) (rest : list A) (s : S)
  : A * S :=
  fold_left (λ '(acc, s') x, fn acc x s') rest (seq0, s).

(** ** A fragment of C++ to evaluate the operator traits on *)

(** [struct X { X(int) noexcept {} }], the class of the static assertions in
    fxx/cxx/is_nothrow_convertible.h, and the type of a reference to a
    function from [int] to [int]. *)
Definition X : ty := Named "X".
Definition int_fn : ty := Named "int(&)(int)".

(** [int + int] is an [int]; calling [int_fn] with an [int] yields an
    [int]; every type converts to itself and [int] converts to [X], without
    throwing. *)
Definition cxx : language :=
  {| decltype_expr := λ o Operands,
       match o, Operands with
       | plus, [a; b] => if is_same a int && is_same b int then Some int else None
       | call, [f; a] => if is_same f int_fn && is_same a int then Some int else None
       | _, _ => None
       end;
     noexcept_expr := λ o Operands, true;
     std_is_convertible := λ From To,
       is_same From To && negb (is_same From detect.nonesuch)
       || is_same From int && is_same To X;
     noexcept_static_cast := λ From To, true |}.

(** ** The specification's scan *)

(** The specification's left-to-right scan: the index of the first element
    satisfying the predicate, or no match. *)
Fixpoint first_match {A} (Pred : A → bool) (seq : list A) : option size_t :=
  match seq with
  | [] => None
  | x :: rest => if Pred x then Some 0 else N.succ <$> first_match Pred rest
  end.

(** ** Sample tuples *)

(** [std::make_tuple(1, 2, 3)]. *)
Definition tuple_123 : list (tuple.element Z) :=
  [tuple.Element int (tuple.Holds 1%Z);
   tuple.Element int (tuple.Holds 2%Z);
   tuple.Element int (tuple.Holds 3%Z)].

(** [std::forward_as_tuple(std::move(a), std::move(b))] with [a] stored at
    address 100 and [b] at address 200. *)
Definition tuple_ab : list (tuple.element Z) :=
  [tuple.Element (RRef int) (tuple.Refers 100);
   tuple.Element (RRef int) (tuple.Refers 200)].

(** A tuple of kinds [int, int&, int&&]. *)
Definition tuple_mixed : list (tuple.element Z) :=
  [tuple.Element int (tuple.Holds 7%Z);
   tuple.Element (LRef int) (tuple.Refers 100);
   tuple.Element (RRef int) (tuple.Refers 200)].

(** ** Proof automation *)

(** Case analysis on the [decide] an Equations clause was split on. *)
Ltac split_decide :=
  repeat match goal with
  | |- context [@decide ?P ?d] => destruct (@decide P d); simpl; try done; try lia
  end.

(** * Properties *)

(** ** The headers' static assertions and the test cases, replayed *)

Example make_index_range_regular : indices.make_index_range 3 3 = [3; 4; 5].
Proof. reflexivity. Qed.

Example make_index_range_trivial : indices.make_index_range 4 0 = [].
Proof. reflexivity. Qed.

Example shift_index_sequence_regular :
  indices.shift_index_sequence_t 1 (indices.make_index_sequence 2) = [1; 2].
Proof. reflexivity. Qed.

Example scale_index_sequence_regular :
  indices.scale_index_sequence_t 2 (indices.make_index_sequence 3) = [0; 2; 4].
Proof. reflexivity. Qed.

(** [std::is_signed] on the types of the assertion. *)
Example meta_first_recursive :
  meta.first (λ T, is_same T short || is_same T int || is_same T long)
    [ushort; int; long] = meta.IndexHelper true 1.
Proof. reflexivity. Qed.

Example meta_find_recursive : meta.find int [short; int; long] = meta.IndexHelper true 1.
Proof. reflexivity. Qed.

Example meta_find_empty : meta.value (meta.find int []) = false.
Proof. reflexivity. Qed.

Example tuple_cat_t_regular :
  meta.tuple_cat_t [[int]; []; [int; LRef int]] = [int; int; LRef int].
Proof. reflexivity. Qed.

Example tuple_flip_t_regular :
  meta.tuple_flip_t [int; LRef int; RRef int] = [RRef int; LRef int; int].
Proof. reflexivity. Qed.

Example tuple_pick_t_regular :
  meta.tuple_pick_t [int; LRef int; RRef int] [2; 1; 2]
    = Some [RRef int; LRef int; RRef int].
Proof. reflexivity. Qed.

Example tuple_dup_t_regular :
  meta.tuple_dup_t 2 [int; LRef int; RRef int]
    = [int; LRef int; RRef int; int; LRef int; RRef int].
Proof. reflexivity. Qed.

Example tuple_skip_t_trivial : meta.tuple_skip_t 3 [int; LRef int; RRef int] = Some [].
Proof. reflexivity. Qed.

Example tuple_skip_t_regular :
  meta.tuple_skip_t 2 [int; LRef int; RRef int] = Some [RRef int].
Proof. reflexivity. Qed.

(** The overflow cases the header keeps commented out do not instantiate. *)
Example tuple_skip_t_overflow : meta.tuple_skip_t 4 [int; LRef int; RRef int] = None.
Proof. reflexivity. Qed.

Example tuple_take_t_regular :
  meta.tuple_take_t 2 [int; LRef int; RRef int] = Some [int; LRef int].
Proof. reflexivity. Qed.

Example tuple_take_t_overflow : meta.tuple_take_t 4 [int; LRef int; RRef int] = None.
Proof. reflexivity. Qed.

Example tuple_slice_t_trivial : meta.tuple_slice_t 2 0 [int; LRef int; RRef int] = Some [].
Proof. reflexivity. Qed.

Example tuple_slice_t_regular :
  meta.tuple_slice_t 1 1 [int; LRef int; RRef int] = Some [LRef int].
Proof. reflexivity. Qed.

Example tuple_slice_t_past_the_end :
  meta.tuple_slice_t 4 0 [int; LRef int; RRef int] = None.
Proof. reflexivity. Qed.

Example tuple_reduce_t_regular :
  meta.tuple_reduce_t (λ a b, StdTuple [a; b]) [int; LRef int; RRef int]
    = Some (StdTuple [StdTuple [int; LRef int]; RRef int]).
Proof. reflexivity. Qed.

Example tuple_reduce_t_empty : meta.tuple_reduce_t (λ a b, StdTuple [a; b]) [] = None.
Proof. reflexivity. Qed.

Example tuple_fold_t_regular :
  meta.tuple_fold_t (λ a b, StdTuple [a; b]) int [LRef int; RRef int]
    = Some (StdTuple [StdTuple [int; LRef int]; RRef int]).
Proof. reflexivity. Qed.

Example test_pick_references :
  tuple.address_of <$> default [] (tuple.pick [1; 1; 0] tuple_ab)
    = [Some 200; Some 200; Some 100].
Proof. reflexivity. Qed.

Example test_flip_values :
  tuple.slot <$> default [] (tuple.flip tuple_123)
    = [tuple.Holds 3%Z; tuple.Holds 2%Z; tuple.Holds 1%Z].
Proof. reflexivity. Qed.

Example test_skip_values :
  tuple.slot <$> default [] (tuple.skip 1 tuple_123)
    = [tuple.Holds 2%Z; tuple.Holds 3%Z].
Proof. reflexivity. Qed.

Example test_take_values :
  tuple.slot <$> default [] (tuple.take 2 tuple_123)
    = [tuple.Holds 1%Z; tuple.Holds 2%Z].
Proof. reflexivity. Qed.

Example test_slice_values :
  tuple.slot <$> default [] (tuple.slice 1 1 tuple_123) = [tuple.Holds 2%Z].
Proof. reflexivity. Qed.

Example test_slice_past_the_end : tuple.slice 4 0 tuple_123 = Some [].
Proof. reflexivity. Qed.

Example test_dup_values : length (tuple.dup 2 tuple_123) = 6%nat.
Proof. reflexivity. Qed.

Example test_fold_values :
  tuple.fold (tuple.pure_fn Z.sub) 6%Z [1; 2; 3]%Z () = Some (0%Z, ()).
Proof. reflexivity. Qed.

Example test_reduce_empty : tuple.reduce (tuple.pure_fn Z.sub) [] () = None.
Proof. reflexivity. Qed.

Example test_first_values :
  tuple.first (λ x, (1 <? x)%Z) [1; 2; 3]%Z = tuple.Optional (Some 1).
Proof. reflexivity. Qed.

Example test_find_values : tuple.find Z.eqb 3%Z [1; 2; 3]%Z = tuple.Optional (Some 2).
Proof. reflexivity. Qed.

Example test_find_absent : tuple.find Z.eqb 7%Z [1; 2; 3]%Z = tuple.Optional None.
Proof. reflexivity. Qed.

(** ** std::size_t arithmetic *)

Lemma size_add_small (a b : size_t) :
  a + b < SIZE_MODULUS → size_add a b = a + b.
Proof. intros H. unfold size_add. by apply N.mod_small. Qed.

Lemma size_sub_small (a b : size_t) :
  b ≤ a → a < SIZE_MODULUS → size_sub a b = a - b.
Proof.
  intros Hle Hlt. unfold size_sub.
  rewrite Z.mod_small by lia. lia.
Qed.

(** ** Index sequences *)

Lemma make_index_sequence_seq (len : size_t) :
  indices.make_index_sequence len = N.of_nat <$> seq 0 (N.to_nat len).
Proof. reflexivity. Qed.

Lemma make_index_range_seq (start len : size_t) :
  start + len ≤ SIZE_MODULUS →
  indices.make_index_range start len = N.of_nat <$> seq (N.to_nat start) (N.to_nat len).
Proof.
  intros Hfit.
  unfold indices.make_index_range, indices.shift_index_sequence_t,
    indices.map_index_sequence_t, indices.make_index_sequence.
  rewrite <- (Nat.add_0_r (N.to_nat start)) at 1.
  rewrite <- fmap_add_seq, <- !list_fmap_compose.
  apply list_fmap_ext. intros i x Hx.
  apply lookup_seq in Hx as [-> Hi]. simpl.
  unfold indices.shift_index_impl. rewrite size_add_small by lia. lia.
Qed.

(** ** Type-level algorithms in closed form *)

Lemma tuple_cat_impl_concat (Tuples : list (list ty)) :
  meta.tuple_cat_impl Tuples = concat Tuples.
Proof.
  funelim (meta.tuple_cat_impl Tuples); simp tuple_cat_impl; simpl.
  - done.
  - by rewrite app_nil_r.
  - rewrite H. simpl. by rewrite app_assoc.
Qed.

Lemma tuple_flip_impl_reverse (Tuple : list ty) :
  meta.tuple_flip_impl Tuple = reverse Tuple.
Proof.
  induction Tuple as [|Head Ts IH]; simpl; [done|].
  rewrite tuple_cat_impl_concat, IH. simpl.
  by rewrite reverse_cons.
Qed.

Lemma tuple_dup_impl_succ (n : size_t) (Tuple : list ty) :
  meta.tuple_dup_impl (N.succ n) Tuple = Tuple ++ meta.tuple_dup_impl n Tuple.
Proof.
  destruct (N.succ n) as [|p] eqn:E; [lia|].
  simp tuple_dup_impl. simpl. rewrite tuple_cat_impl_concat. simpl.
  rewrite app_nil_r. do 2 f_equal. lia.
Qed.

Lemma tuple_skip_impl_succ (n : size_t) (Tuple : list ty) :
  meta.tuple_skip_impl (N.succ n) Tuple =
    meta.tuple_skip_one Tuple ≫= meta.tuple_skip_impl n.
Proof.
  destruct (N.succ n) as [|p] eqn:E; [lia|].
  simp tuple_skip_impl. replace (N.pos p - 1) with n by lia. done.
Qed.

Lemma tuple_take_impl_succ (n : size_t) (Tuple : list ty) :
  meta.tuple_take_impl (N.succ n) Tuple =
    prefix ← meta.tuple_take_one Tuple;
    suffix ← meta.tuple_skip_one Tuple;
    rest ← meta.tuple_take_impl n suffix;
    Some (prefix ++ rest).
Proof.
  destruct (N.succ n) as [|p] eqn:E; [lia|].
  simp tuple_take_impl. replace (N.pos p - 1) with n by lia.
  destruct (meta.tuple_take_one Tuple) as [prefix|]; simpl; [|done].
  destruct (meta.tuple_skip_one Tuple) as [suffix|]; simpl; [|done].
  destruct (meta.tuple_take_impl n suffix) as [rest|]; simpl; [|done].
  rewrite tuple_cat_impl_concat. simpl. by rewrite app_nil_r.
Qed.

Lemma tuple_skip_impl_drop (k : nat) (Tuple : list ty) :
  meta.tuple_skip_impl (N.of_nat k) Tuple =
    if decide (k ≤ length Tuple)%nat then Some (drop k Tuple) else None.
Proof.
  revert Tuple. induction k as [|k IH]; intros Tuple.
  - simpl. simp tuple_skip_impl. by rewrite drop_0.
  - rewrite Nat2N.inj_succ, tuple_skip_impl_succ.
    destruct Tuple as [|Head Tail]; simpl; [done|].
    rewrite IH. repeat case_decide; try done; lia.
Qed.

Lemma tuple_take_impl_take (k : nat) (Tuple : list ty) :
  meta.tuple_take_impl (N.of_nat k) Tuple =
    if decide (k ≤ length Tuple)%nat then Some (take k Tuple) else None.
Proof.
  revert Tuple. induction k as [|k IH]; intros Tuple.
  - simpl. simp tuple_take_impl. done.
  - rewrite Nat2N.inj_succ, tuple_take_impl_succ.
    destruct Tuple as [|Head Tail]; simpl; [done|].
    rewrite IH. repeat case_decide; try done; lia.
Qed.

Lemma tuple_skip_t_Some (n : size_t) (Tuple ks : list ty) :
  meta.tuple_skip_t n Tuple = Some ks ↔
    n ≤ tuple_size_v Tuple ∧ ks = drop (N.to_nat n) Tuple.
Proof.
  unfold meta.tuple_skip_t, tuple_size_v.
  rewrite <- (N2Nat.id n) at 1. rewrite tuple_skip_impl_drop.
  case_decide; split.
  - intros [= <-]. split; [lia|done].
  - by intros [_ ->].
  - done.
  - intros [? _]. lia.
Qed.

Lemma tuple_take_t_Some (n : size_t) (Tuple ks : list ty) :
  meta.tuple_take_t n Tuple = Some ks ↔
    n ≤ tuple_size_v Tuple ∧ ks = take (N.to_nat n) Tuple.
Proof.
  unfold meta.tuple_take_t, tuple_size_v.
  rewrite <- (N2Nat.id n) at 1. rewrite tuple_take_impl_take.
  case_decide; split.
  - intros [= <-]. split; [lia|done].
  - by intros [_ ->].
  - done.
  - intros [? _]. lia.
Qed.

Lemma tuple_slice_t_Some (start len : size_t) (Tuple ks : list ty) :
  meta.tuple_slice_t start len Tuple = Some ks ↔
    start + len ≤ tuple_size_v Tuple ∧
    ks = take (N.to_nat len) (drop (N.to_nat start) Tuple).
Proof.
  unfold meta.tuple_slice_t. split.
  - intros H.
    destruct (meta.tuple_skip_t start Tuple) as [skipped|] eqn:Hs; simpl in H; [|done].
    apply tuple_skip_t_Some in Hs as [Hle ->].
    apply tuple_take_t_Some in H as [Hle' ->].
    unfold tuple_size_v in *. rewrite length_drop in Hle'. split; [lia|done].
  - intros [Hle ->].
    assert (meta.tuple_skip_t start Tuple = Some (drop (N.to_nat start) Tuple)) as ->.
    { apply tuple_skip_t_Some. unfold tuple_size_v in *. split; [lia|done]. }
    simpl. apply tuple_take_t_Some.
    unfold tuple_size_v in *. rewrite length_drop. split; [lia|done].
Qed.

(** ** Value-level restructuring in closed form *)

Section restructuring_facts.
Context {V : Type}.
Implicit Types (t r : list (tuple.element V)) (e : tuple.element V).

Lemma kinds_length t : length (tuple.kinds t) = length t.
Proof. apply length_fmap. Qed.

Lemma kinds_lookup t (i : nat) : tuple.kinds t !! i = tuple.kind <$> t !! i.
Proof. apply list_lookup_fmap. Qed.

(** One step of [pick_f]: the element at [Head], then the rest. *)
Lemma pick_f_cons (Head : size_t) (Tail : list size_t) t :
  tuple.pick_f (Head :: Tail) t =
    x ← tuple.get Head t; rest ← tuple.pick_f Tail t; Some (x :: rest).
Proof.
  simpl. unfold tuple_element_t, tuple.get. rewrite kinds_lookup.
  destruct (t !! N.to_nat Head) as [x|]; simpl; [|done].
  destruct (tuple.pick_f Tail t) as [rest|]; simpl; [|done].
  unfold tuple.std_tuple_cat. simpl.
  rewrite app_nil_r. by destruct x.
Qed.


Lemma pick_f_length (Ns : list size_t) t r :
  tuple.pick_f Ns t = Some r → length r = length Ns.
Proof.
  revert r. induction Ns as [|Head Tail IH]; intros r.
  - by intros [= <-].
  - rewrite pick_f_cons.
    destruct (tuple.get Head t) as [x|]; simpl; [|done].
    destruct (tuple.pick_f Tail t) as [rest|]; simpl; [|done].
    intros [= <-]. simpl. f_equal. by apply IH.
Qed.

(** The [j]-th element of the result is the element the [j]-th index
    names. *)
Lemma pick_f_lookup (Ns : list size_t) t r (j : nat) (i : size_t) :
  tuple.pick_f Ns t = Some r → Ns !! j = Some i → r !! j = tuple.get i t.
Proof.
  revert r j. induction Ns as [|Head Tail IH]; intros r j; [done|].
  rewrite pick_f_cons.
  destruct (tuple.get Head t) as [x|] eqn:Hx; simpl; [|done].
  destruct (tuple.pick_f Tail t) as [rest|]; simpl; [|done].
  intros [= <-]. destruct j as [|j]; simpl.
  - by intros [= <-].
  - by apply IH.
Qed.

Lemma pick_f_is_Some (Ns : list size_t) t :
  Forall (λ i, i < tuple_size_v t) Ns → is_Some (tuple.pick_f Ns t).
Proof.
  induction 1 as [|Head Tail Hi _ IH]; [by eexists|].
  rewrite pick_f_cons.
  destruct (lookup_lt_is_Some_2 t (N.to_nat Head)) as [x Hx].
  { unfold tuple_size_v in Hi. lia. }
  unfold tuple.get. rewrite Hx. simpl.
  destruct IH as [rest ->]. by eexists.
Qed.

(** Picking the run of indices [s, s+1, ..., s+len-1]. *)
Lemma pick_f_seq (s len : nat) t :
  (s + len ≤ length t)%nat →
  tuple.pick_f (N.of_nat <$> seq s len) t = Some (take len (drop s t)).
Proof.
  revert s. induction len as [|len IH]; intros s Hle; [done|].
  rewrite <- cons_seq, fmap_cons, pick_f_cons.
  destruct (lookup_lt_is_Some_2 t s) as [x Hx]; [lia|].
  unfold tuple.get. rewrite Nat2N.id, Hx. simpl.
  rewrite IH by lia. simpl.
  by rewrite (drop_S _ _ _ Hx).
Qed.

Lemma take_f_take (n : size_t) t :
  n ≤ tuple_size_v t → tuple.take_f n t = Some (take (N.to_nat n) t).
Proof.
  intros Hle. unfold tuple.take_f, indices.apply_index_sequence_t.
  rewrite make_index_sequence_seq, pick_f_seq.
  - by rewrite drop_0.
  - unfold tuple_size_v in Hle. lia.
Qed.

Lemma slice_f_take_drop (start len : size_t) t :
  tuple_size_v t < SIZE_MODULUS → start + len ≤ tuple_size_v t →
  tuple.slice_f start len t = Some (take (N.to_nat len) (drop (N.to_nat start) t)).
Proof.
  intros Hfit Hle. unfold tuple.slice_f, indices.apply_index_sequence_t.
  rewrite make_index_range_seq by lia.
  apply pick_f_seq. unfold tuple_size_v in Hle. lia.
Qed.

Lemma skip_f_drop (n : size_t) t :
  tuple_size_v t < SIZE_MODULUS → n ≤ tuple_size_v t →
  tuple.skip_f n t = Some (drop (N.to_nat n) t).
Proof.
  intros Hfit Hle. unfold tuple.skip_f, indices.apply_index_sequence_t.
  assert (tuple_size_v (tuple.kinds t) = tuple_size_v t) as ->.
  { unfold tuple_size_v. by rewrite kinds_length. }
  rewrite size_sub_small by done.
  rewrite make_index_range_seq by lia.
  unfold tuple_size_v in *.
  rewrite pick_f_seq by lia.
  apply f_equal, take_ge. rewrite length_drop. lia.
Qed.




Lemma dup_f_succ (n : size_t) t :
  tuple.dup_f (N.succ n) t = t ++ tuple.dup_f n t.
Proof.
  destruct (N.succ n) as [|p] eqn:E; [lia|].
  simp dup_f. unfold tuple.std_tuple_cat. simpl.
  rewrite app_nil_r. do 2 f_equal. lia.
Qed.

End restructuring_facts.








(** ** Value level against type level *)




(** ** Ownership and storage identity under pick *)

(** C2: when every picked position of the input holds a reference, pick
    returns a tuple with one element per index, and the element at each
    position has the kind (hence the ownership category) of the input element
    its index names and aliases the same address; an index picked twice gives
    two aliases of the one address. *)
Theorem pick_aliases_storage {V} (t : list (tuple.element V)) (Ns : list size_t) :
  Forall (λ i, ∃ e a, tuple.get i t = Some e ∧ tuple.slot e = tuple.Refers a) Ns →
  ∃ r, tuple.pick Ns t = Some r ∧ length r = length Ns ∧
    ∀ (j : nat) (i : size_t), Ns !! j = Some i →
      ∃ e e' a, tuple.get i t = Some e ∧ r !! j = Some e' ∧
        tuple.kind e' = tuple.kind e ∧
        category (tuple.kind e') = category (tuple.kind e) ∧
        tuple.address_of e = Some a ∧ tuple.address_of e' = Some a.
Proof.
  intros Href. unfold tuple.pick.
  destruct (pick_f_is_Some Ns t) as [r Hr].
  { eapply Forall_impl; [exact Href|]. intros i (e & a & He & _).
    apply lookup_lt_Some in He. unfold tuple_size_v. lia. }
  exists r. split; [done|]. split; [by eapply pick_f_length|].
  intros j i Hj.
  rewrite Forall_forall in Href.
  destruct (Href i) as (e & a & He & Ha).
  { eapply list_elem_of_lookup_2, Hj. }
  exists e, e, a. rewrite (pick_f_lookup Ns t r j i Hr Hj).
  unfold tuple.address_of. by rewrite Ha.
Qed.

Lemma pick_aliases_storage_witness :
  ∃ r, tuple.pick [1; 1; 0] tuple_ab = Some r ∧ length r = 3%nat ∧
    ∀ (j : nat) (i : size_t), [1; 1; 0] !! j = Some i →
      ∃ e e' a, tuple.get i tuple_ab = Some e ∧ r !! j = Some e' ∧
        tuple.kind e' = tuple.kind e ∧
        category (tuple.kind e') = category (tuple.kind e) ∧
        tuple.address_of e = Some a ∧ tuple.address_of e' = Some a.
Proof.
  apply (pick_aliases_storage tuple_ab [1; 1; 0]).
  repeat (apply Forall_cons; split; [by eexists _, _|]).
  apply Forall_nil. done.
Defined.

(** ** Slice is take after skip *)

(** C5: for [start + len] within the tuple, [tuple_slice_t] is [tuple_take_t]
    of [tuple_skip_t] and the value-level slice is take of skip, both being
    the elements [start, ..., start+len-1].  With length 0 the value-level
    slice yields the empty tuple at every start; [tuple_slice_t] yields it at
    every start up to the tuple's size and has no result beyond. *)
Theorem slice_is_take_of_skip {V} (S : list (tuple.element V)) (start len : size_t) :
  tuple_size_v S < SIZE_MODULUS →
  start + len ≤ tuple_size_v S →
  meta.tuple_slice_t start len (tuple.kinds S)
    = meta.tuple_skip_t start (tuple.kinds S) ≫= meta.tuple_take_t len
  ∧ meta.tuple_slice_t start len (tuple.kinds S)
    = Some (take (N.to_nat len) (drop (N.to_nat start) (tuple.kinds S)))
  ∧ tuple.slice start len S = tuple.skip start S ≫= tuple.take len
  ∧ tuple.slice start len S = Some (take (N.to_nat len) (drop (N.to_nat start) S))
  ∧ (∀ any_start : size_t, any_start ≤ tuple_size_v S →
       meta.tuple_slice_t any_start 0 (tuple.kinds S) = Some [])
  ∧ (∀ any_start : size_t, tuple_size_v S < any_start →
       meta.tuple_slice_t any_start 0 (tuple.kinds S) = None)
  ∧ (∀ any_start : size_t, tuple.slice any_start 0 S = Some []).
Proof.
  intros Hfit Hle.
  assert (tuple_size_v (tuple.kinds S) = tuple_size_v S) as Hsize.
  { unfold tuple_size_v. by rewrite kinds_length. }
  split; [done|]. split_and!.
  - apply tuple_slice_t_Some. rewrite Hsize. done.
  - unfold tuple.slice, tuple.skip, tuple.take.
    rewrite slice_f_take_drop, skip_f_drop by (done || lia). simpl.
    rewrite take_f_take; [done|].
    unfold tuple_size_v in *. rewrite length_drop. lia.
  - by apply slice_f_take_drop.
  - intros any_start Hany. apply tuple_slice_t_Some. rewrite Hsize.
    split; [lia|done].
  - intros any_start Hbeyond.
    destruct (meta.tuple_slice_t any_start 0 (tuple.kinds S)) as [ks|] eqn:Hks; [|done].
    apply tuple_slice_t_Some in Hks as [Hin _]. rewrite Hsize in Hin. lia.
  - done.
Qed.

Lemma slice_is_take_of_skip_witness :
  meta.tuple_slice_t 1 1 (tuple.kinds tuple_mixed)
    = meta.tuple_skip_t 1 (tuple.kinds tuple_mixed) ≫= meta.tuple_take_t 1
  ∧ meta.tuple_slice_t 1 1 (tuple.kinds tuple_mixed)
    = Some (take 1 (drop 1 (tuple.kinds tuple_mixed)))
  ∧ tuple.slice 1 1 tuple_mixed = tuple.skip 1 tuple_mixed ≫= tuple.take 1
  ∧ tuple.slice 1 1 tuple_mixed = Some (take 1 (drop 1 tuple_mixed))
  ∧ (∀ any_start : size_t, any_start ≤ tuple_size_v tuple_mixed →
       meta.tuple_slice_t any_start 0 (tuple.kinds tuple_mixed) = Some [])
  ∧ (∀ any_start : size_t, tuple_size_v tuple_mixed < any_start →
       meta.tuple_slice_t any_start 0 (tuple.kinds tuple_mixed) = None)
  ∧ (∀ any_start : size_t, tuple.slice any_start 0 tuple_mixed = Some []).
Proof.
  apply (slice_is_take_of_skip tuple_mixed 1 1).
  - vm_compute. reflexivity.
  - vm_compute. intros H. discriminate H.
Defined.

(** C5, as the claim reads: a type-level slice of length 0 is not the empty
    tuple regardless of its start.  [tuple_slice_t<4, 0, std::tuple<int, int,
    int>>] has no result, although [4 + 0] is no index the slice would read
    and the value-level [slice<4, 0>] of such a tuple is the empty tuple. *)
Lemma tuple_slice_t_empty_not_regardless_of_start :
  ¬ (∀ (start : size_t) (Tuple : list ty), meta.tuple_slice_t start 0 Tuple = Some [])
  ∧ meta.tuple_slice_t 4 0 (tuple.kinds tuple_123) = None
  ∧ tuple.slice 4 0 tuple_123 = Some [].
Proof.
  split; [|done]. intros Hall.
  specialize (Hall 4 (tuple.kinds tuple_123)). discriminate Hall.
Qed.

(** ** Reduce and fold *)

Section transforming_facts.
Context {A S : Type}.
Implicit Types (fn : A → A → S → A * S) (t : list A) (s : S).

Lemma left_assoc_snoc fn (x y : A) (xs : list A) s :
  left_assoc fn x (xs ++ [y]) s =
    let '(acc, s') := left_assoc fn x xs s in fn acc y s'.
Proof. unfold left_assoc. rewrite fold_left_app. simpl. by destruct (fold_left _ _ _). Qed.

Lemma reduce_impl_one fn t s :
  tuple.reduce_impl 1 fn t s = x ← tuple.get 0 t; Some (x, s).
Proof. rewrite tuple.reduce_impl_equation_1. split_decide. Qed.

Lemma reduce_impl_zero fn t s : tuple.reduce_impl 0 fn t s = None.
Proof. rewrite tuple.reduce_impl_equation_1. split_decide. Qed.

Lemma reduce_impl_step (n : size_t) fn t s :
  n ≠ 0 → n ≠ 1 →
  tuple.reduce_impl n fn t s =
    '(acc, s') ← tuple.reduce_impl (n - 1) fn t s;
    x ← tuple.get (n - 1) t;
    Some (fn acc x s').
Proof. intros H0 H1. rewrite tuple.reduce_impl_equation_1. split_decide. Qed.

(** Reducing the first [k+1] elements. *)
Lemma reduce_impl_prefix fn (x : A) (xs : list A) s (k : nat) :
  (k ≤ length xs)%nat →
  tuple.reduce_impl (N.of_nat (Datatypes.S k)) fn (x :: xs) s =
    Some (left_assoc fn x (take k xs) s).
Proof.
  induction k as [|k IH]; intros Hk.
  - by rewrite reduce_impl_one, take_0.
  - rewrite reduce_impl_step by lia.
    replace (N.of_nat (Datatypes.S (Datatypes.S k)) - 1)
      with (N.of_nat (Datatypes.S k)) by lia.
    rewrite IH by lia. simpl.
    destruct (lookup_lt_is_Some_2 xs k) as [y Hy]; [lia|].
    unfold tuple.get. rewrite Nat2N.id. simpl. rewrite Hy. simpl.
    rewrite (take_S_r _ _ _ Hy), left_assoc_snoc.
    by destruct (left_assoc fn x (take k xs) s).
Qed.

Lemma reduce_f_left_assoc fn (x : A) (xs : list A) s :
  tuple.reduce_f fn (x :: xs) s = Some (left_assoc fn x xs s).
Proof.
  unfold tuple.reduce_f, tuple_size_v.
  change (length (x :: xs)) with (Datatypes.S (length xs)).
  rewrite reduce_impl_prefix by done. by rewrite firstn_all.
Qed.

Lemma fold_impl_succ (n : size_t) fn (init : A) t s :
  tuple.fold_impl (N.succ n) fn init t s =
    '(acc, s') ← tuple.fold_impl n fn init t s;
    x ← tuple.get n t;
    Some (fn acc x s').
Proof.
  destruct (N.succ n) as [|p] eqn:E; [lia|].
  simp fold_impl. by replace (N.pos p - 1) with n by lia.
Qed.

Lemma fold_impl_prefix fn (init : A) t s (k : nat) :
  (k ≤ length t)%nat →
  tuple.fold_impl (N.of_nat k) fn init t s = Some (left_assoc fn init (take k t) s).
Proof.
  induction k as [|k IH]; intros Hk.
  - simpl. by simp fold_impl.
  - rewrite Nat2N.inj_succ, fold_impl_succ, IH by lia. simpl.
    destruct (lookup_lt_is_Some_2 t k) as [y Hy]; [lia|].
    unfold tuple.get. rewrite Nat2N.id, Hy. simpl.
    rewrite (take_S_r _ _ _ Hy), left_assoc_snoc.
    by destruct (left_assoc fn init (take k t) s).
Qed.

Lemma fold_f_left_assoc fn (init : A) t s :
  tuple.fold_f fn init t s = Some (left_assoc fn init t s).
Proof.
  unfold tuple.fold_f, tuple_size_v.
  rewrite fold_impl_prefix by done. by rewrite firstn_all.
Qed.
End transforming_facts.

Lemma tuple_reduce_impl_one (Fn : ty → ty → ty) (Tuple : list ty) :
  meta.tuple_reduce_impl Fn 1 Tuple = tuple_element_t 0 Tuple.
Proof. rewrite meta.tuple_reduce_impl_equation_1. split_decide. Qed.

Lemma tuple_reduce_impl_step (Fn : ty → ty → ty) (n : size_t) (Tuple : list ty) :
  n ≠ 0 → n ≠ 1 →
  meta.tuple_reduce_impl Fn n Tuple =
    pred ← meta.tuple_reduce_impl Fn (n - 1) Tuple;
    cur ← tuple_element_t (n - 1) Tuple;
    Some (Fn pred cur).
Proof. intros H0 H1. rewrite meta.tuple_reduce_impl_equation_1. split_decide. Qed.

Lemma tuple_reduce_impl_prefix (Fn : ty → ty → ty) (T : ty) (Ts : list ty) (k : nat) :
  (k ≤ length Ts)%nat →
  meta.tuple_reduce_impl Fn (N.of_nat (S k)) (T :: Ts) = Some (fold_left Fn (take k Ts) T).
Proof.
  induction k as [|k IH]; intros Hk.
  - by rewrite tuple_reduce_impl_one, take_0.
  - rewrite tuple_reduce_impl_step by lia.
    replace (N.of_nat (S (S k)) - 1) with (N.of_nat (S k)) by lia.
    rewrite IH by lia. simpl.
    destruct (lookup_lt_is_Some_2 Ts k) as [y Hy]; [lia|].
    unfold tuple_element_t. rewrite Nat2N.id. simpl. rewrite Hy. simpl.
    by rewrite (take_S_r _ _ _ Hy), fold_left_app.
Qed.

Lemma tuple_reduce_t_fold_left (Fn : ty → ty → ty) (T : ty) (Ts : list ty) :
  meta.tuple_reduce_t Fn (T :: Ts) = Some (fold_left Fn Ts T).
Proof.
  unfold meta.tuple_reduce_t, tuple_size_v.
  change (length (T :: Ts)) with (S (length Ts)).
  rewrite tuple_reduce_impl_prefix by done. by rewrite firstn_all.
Qed.

(** C3: reduce over a sequence of length at least 1 is the left-associative
    combination [fn(fn(fn(seq[0], seq[1]), seq[2]), ...)]; on a sequence of
    length 1 it returns the element and leaves the state [fn] acts on
    untouched, whatever [fn] is; subtraction over (1, 2, 3) gives -4; and
    [tuple_reduce_t] is the same combination of types. *)
Theorem reduce_is_left_associative :
  (∀ (A S : Type) (fn : A → A → S → A * S) (x : A) (xs : list A) (s : S),
     tuple.reduce fn (x :: xs) s = Some (left_assoc fn x xs s))
  ∧ (∀ (A S : Type) (fn : A → A → S → A * S) (x : A) (s : S),
       tuple.reduce fn [x] s = Some (x, s))
  ∧ tuple.reduce (tuple.pure_fn Z.sub) [1; 2; 3]%Z () = Some ((1 - 2 - 3)%Z, ())
  ∧ (1 - 2 - 3 = -4)%Z
  ∧ (∀ (Fn : ty → ty → ty) (T : ty) (Ts : list ty),
       meta.tuple_reduce_t Fn (T :: Ts) = Some (fold_left Fn Ts T))
  ∧ (∀ (Fn : ty → ty → ty) (T : ty), meta.tuple_reduce_t Fn [T] = Some T).
Proof.
  split_and!.
  - intros. apply reduce_f_left_assoc.
  - intros. apply (reduce_f_left_assoc fn x []).
  - apply (reduce_f_left_assoc (tuple.pure_fn Z.sub) 1%Z [2; 3]%Z).
  - done.
  - intros. apply tuple_reduce_t_fold_left.
  - intros. apply (tuple_reduce_t_fold_left Fn T []).
Qed.

(** C4: fold is reduce over the seed prepended to the sequence, at the value
    level and at the type level; folding the empty sequence returns the seed
    and leaves the state [fn] acts on untouched, whatever [fn] is. *)
Theorem fold_is_reduce_of_concat :
  (∀ (A S : Type) (fn : A → A → S → A * S) (init : A) (seq : list A) (s : S),
     tuple.fold fn init seq s
       = tuple.reduce fn (tuple.std_tuple_cat [tuple.std_make_tuple [init]; seq]) s)
  ∧ (∀ (A S : Type) (fn : A → A → S → A * S) (init : A) (s : S),
       tuple.fold fn init [] s = Some (init, s))
  ∧ (∀ (Fn : ty → ty → ty) (Init : ty) (Tuple : list ty),
       meta.tuple_fold_t Fn Init Tuple
         = meta.tuple_reduce_t Fn (meta.tuple_cat_t [meta.make_tuple_t [Init]; Tuple]))
  ∧ (∀ (Fn : ty → ty → ty) (Init : ty) (Tuple : list ty),
       meta.tuple_fold_t Fn Init Tuple = Some (fold_left Fn Tuple Init))
  ∧ (∀ (Fn : ty → ty → ty) (Init : ty), meta.tuple_fold_t Fn Init [] = Some Init).
Proof.
  assert (∀ Fn Init Tuple, meta.tuple_fold_t Fn Init Tuple = Some (fold_left Fn Tuple Init))
    as Hfold.
  { intros. unfold meta.tuple_fold_t, meta.tuple_cat_t.
    rewrite tuple_cat_impl_concat. simpl. rewrite app_nil_r.
    apply tuple_reduce_t_fold_left. }
  split_and!.
  - intros. unfold tuple.fold, tuple.reduce, tuple.std_tuple_cat, tuple.std_make_tuple.
    simpl. rewrite app_nil_r.
    by rewrite fold_f_left_assoc, reduce_f_left_assoc.
  - intros. apply (fold_f_left_assoc fn init []).
  - done.
  - apply Hfold.
  - intros. apply (Hfold Fn Init []).
Qed.

(** ** Searching *)

Section searching_facts.
Context {A : Type}.
Implicit Types (Pred : A → bool) (t : list A).

Lemma first_impl_unfold (Offset : size_t) Pred t :
  tuple.first_impl Offset Pred t =
    if decide (tuple_size_v t ≤ Offset) then tuple.Nullopt
    else match tuple.get Offset t with
         | Some x =>
             if Pred x then tuple.Optional (Some Offset)
             else tuple.Optional
                    (tuple.to_optional (tuple.first_impl (Offset + 1) Pred t))
         | None => tuple.Nullopt
         end.
Proof.
  rewrite tuple.first_impl_equation_1.
  destruct (decide (tuple_size_v t ≤ Offset)); simpl; [done|].
  destruct (tuple.get Offset t) as [x|]; simpl; [|done].
  by destruct (Pred x).
Qed.

(** Scanning from position [k] with [m] elements left. *)
Lemma first_impl_scan Pred t (m k : nat) :
  (k + m)%nat = length t →
  tuple.first_impl (N.of_nat k) Pred t =
    match m with
    | O => tuple.Nullopt
    | S _ => tuple.Optional (N.add (N.of_nat k) <$> first_match Pred (drop k t))
    end.
Proof.
  revert k. induction m as [|m IH]; intros k Hk; rewrite first_impl_unfold.
  - case_decide as Hd; [done|]. unfold tuple_size_v in Hd. lia.
  - case_decide as Hd; [unfold tuple_size_v in Hd; lia|].
    destruct (lookup_lt_is_Some_2 t k) as [x Hx]; [lia|].
    unfold tuple.get. rewrite Nat2N.id, Hx, (drop_S _ _ _ Hx). simpl.
    destruct (Pred x); simpl.
    + do 2 f_equal. lia.
    + replace (N.of_nat k + 1) with (N.of_nat (S k)) by lia.
      rewrite IH by lia. f_equal.
      destruct m as [|m]; simpl.
      * rewrite drop_ge by lia. done.
      * destruct (first_match Pred (drop (S k) t)) as [i|]; simpl; [|done].
        f_equal. lia.
Qed.

Lemma first_f_first_match Pred t :
  tuple.first_f Pred t =
    match t with
    | [] => tuple.Nullopt
    | _ :: _ => tuple.Optional (first_match Pred t)
    end.
Proof.
  unfold tuple.first_f.
  change 0 with (N.of_nat 0).
  rewrite (first_impl_scan Pred t (length t) 0) by done.
  destruct t as [|x t]; simpl; [done|].
  f_equal. destruct (Pred x); simpl; [done|].
  by destruct (first_match Pred t) as [i|].
Qed.

Lemma first_match_Some Pred t (i : size_t) :
  first_match Pred t = Some i →
  (∃ x, t !! N.to_nat i = Some x ∧ Pred x = true) ∧
  (∀ (j : nat) (y : A), (j < N.to_nat i)%nat → t !! j = Some y → Pred y = false).
Proof.
  revert i. induction t as [|x t IH]; intros i; simpl; [done|].
  destruct (Pred x) eqn:Hx.
  - intros [= <-]. split; [by exists x|]. intros j y Hj. lia.
  - destruct (first_match Pred t) as [i'|]; simpl; [|done].
    intros [= <-]. destruct (IH i' eq_refl) as [(x' & Hx' & HP) Hmin].
    split.
    + exists x'. rewrite N2Nat.inj_succ. done.
    + intros [|j] y Hj; simpl.
      * by intros [= <-].
      * apply Hmin. lia.
Qed.

Lemma first_match_None Pred t :
  first_match Pred t = None → ∀ x, x ∈ t → Pred x = false.
Proof.
  induction t as [|y t IH]; simpl; intros Hnone x Hin.
  - by apply elem_of_nil in Hin.
  - destruct (Pred y) eqn:Hy; [done|].
    destruct (first_match Pred t) as [i|]; simpl in Hnone; [done|].
    apply elem_of_cons in Hin as [->|Hin]; [done|]. by apply IH.
Qed.

Lemma first_match_is_Some Pred t :
  is_Some (first_match Pred t) ↔ ∃ x, x ∈ t ∧ Pred x = true.
Proof.
  split.
  - intros [i Hi]. apply first_match_Some in Hi as [(x & Hx & HP) _].
    exists x. split; [|done]. by eapply list_elem_of_lookup_2.
  - intros (x & Hin & HP).
    destruct (first_match Pred t) as [i|] eqn:E; [by eexists|].
    rewrite (first_match_None Pred t E x Hin) in HP. done.
Qed.
End searching_facts.

(** C9: first on the empty sequence finds no match, at the value level and at
    the type level; the value-level find returns the smallest index whose
    element compares equal to the value, the comparison being the lambda's
    [value == x], and no match when no element does. *)
Theorem find_returns_smallest_index {A} (Pred : A → bool) (TypePred : ty → bool)
    (equal_to : A → A → bool) (v : A) (S : list A) :
  tuple.to_optional (tuple.first Pred []) = None
  ∧ meta.value (meta.first TypePred []) = false
  ∧ match tuple.to_optional (tuple.find equal_to v S) with
    | Some i =>
        (∃ x, S !! N.to_nat i = Some x ∧ equal_to v x = true) ∧
        (∀ (j : nat) (y : A),
           (j < N.to_nat i)%nat → S !! j = Some y → equal_to v y = false)
    | None => ∀ x, x ∈ S → equal_to v x = false
    end.
Proof.
  split_and!; [done..|].
  unfold tuple.find, tuple.find_f, tuple.first. rewrite first_f_first_match.
  destruct S as [|x S]; [intros x Hx; by apply elem_of_nil in Hx|].
  cbn [tuple.to_optional].
  destruct (first_match (λ x0, equal_to v x0) (x :: S)) as [i|] eqn:E.
  - by apply first_match_Some in E.
  - by apply first_match_None.
Qed.

(** C10: on a 0-tuple first and find return [std::nullopt], of type
    [std::nullopt_t]; on a non-empty tuple they return a
    [std::optional<std::size_t>] that holds the index of the first match and
    is disengaged when nothing matches.  The type depends on the tuple's size
    alone. *)
Theorem first_static_result_type {A} (Pred : A → bool) (equal_to : A → A → bool)
    (value : A) (t : list A) :
  match t with
  | [] =>
      tuple.first Pred t = tuple.Nullopt
      ∧ tuple.find equal_to value t = tuple.Nullopt
      ∧ tuple.static_type (tuple.first Pred t) = Named "std::nullopt_t"
      ∧ tuple.static_type (tuple.find equal_to value t) = Named "std::nullopt_t"
  | _ :: _ =>
      tuple.first Pred t = tuple.Optional (first_match Pred t)
      ∧ tuple.find equal_to value t = tuple.Optional (first_match (equal_to value) t)
      ∧ tuple.static_type (tuple.first Pred t)
          = Inst "std::optional" [Named "std::size_t"]
      ∧ tuple.static_type (tuple.find equal_to value t)
          = Inst "std::optional" [Named "std::size_t"]
      ∧ (is_Some (first_match Pred t) ↔ ∃ x, x ∈ t ∧ Pred x = true)
  end.
Proof.
  unfold tuple.find, tuple.find_f, tuple.first.
  rewrite !first_f_first_match.
  destruct t as [|x t]; [done|].
  split_and!; try done. apply first_match_is_Some.
Qed.

(** ** std::is_same decides equality of types *)

Lemma is_same_eq : ∀ a b : ty, is_same a b = true → a = b.
Proof.
  fix IH 1.
  intros [s|a|a|c ts] [s'|b|b|c' ts']; simpl; try done.
  - intros H. apply bool_decide_eq_true in H. by subst.
  - intros H. f_equal. by apply IH.
  - intros H. f_equal. by apply IH.
  - intros H. apply andb_true_iff in H as [Hc Hts].
    apply bool_decide_eq_true in Hc. subst. f_equal.
    revert ts ts' Hts. fix IHl 1.
    intros [|x r] [|y r']; simpl; try done.
    intros H. apply andb_true_iff in H as [Hxy Hr].
    f_equal; [by apply IH|by apply IHl].
Qed.

Lemma is_same_refl : ∀ a : ty, is_same a a = true.
Proof.
  fix IH 1.
  intros [s|a|a|c ts]; simpl.
  - by apply bool_decide_eq_true.
  - apply IH.
  - apply IH.
  - apply andb_true_iff. split; [by apply bool_decide_eq_true|].
    revert ts. fix IHl 1.
    intros [|x r]; simpl; [done|].
    apply andb_true_iff. split; [apply IH|apply IHl].
Qed.

Lemma is_same_true (a b : ty) : is_same a b = true ↔ a = b.
Proof. split; [apply is_same_eq|intros ->; apply is_same_refl]. Qed.

(** ** Detection *)

Lemma detect_impl_void (Default : ty) (Op : detect.template) (Args : list ty) :
  detect.detect_impl Default void Op Args =
    match Op Args with
    | Some instance => detect.DetectImpl true instance
    | None => detect.DetectImpl false Default
    end.
Proof. unfold detect.detect_impl. by destruct (Op Args). Qed.

(** C6: [is_detected] is true exactly when [Op<Args...>] is well-formed,
    [detected_or_t] is the instantiation then and [Default] otherwise; both are
    defined for every query, so an ill-formed one is answered with [false] and
    [Default]. *)
Theorem detection_answers_every_query (Op : detect.template) (Args : list ty)
    (Default : ty) :
  (detect.is_detected Op Args = true ↔ is_Some (Op Args))
  ∧ match Op Args with
    | Some instance =>
        detect.is_detected Op Args = true
        ∧ detect.detected_or_t Default Op Args = instance
    | None =>
        detect.is_detected Op Args = false
        ∧ detect.detected_or_t Default Op Args = Default
    end.
Proof.
  unfold detect.is_detected, detect.detected_or_t.
  rewrite !detect_impl_void.
  destruct (Op Args) as [instance|]; simpl.
  - split; [|done]. split; [by eexists|done].
  - split; [|done]. split; [done|]. by intros [? ?].
Qed.

(** ** Operator traits *)

Section operator_facts.
Context (L : language).

Lemma detected_t_name_t (o : operator) (Operands : list ty) :
  detect.detected_t (name_t L o) Operands =
    default detect.nonesuch (name_t L o Operands).
Proof.
  unfold detect.detected_t, detect.detected_or_t. rewrite detect_impl_void.
  by destruct (name_t L o Operands).
Qed.

(** The [has_op_convertible_name] query, for a target that [nonesuch] does
    not convert to. *)
Lemma has_op_convertible_iff (o : operator) (To : ty) (Operands : list ty) :
  std_is_convertible L detect.nonesuch To = false →
  op.has_op_convertible L o To Operands = true ↔
    ∃ Result, name_t L o Operands = Some Result
              ∧ std_is_convertible L Result To = true.
Proof.
  intros Hnone. unfold op.has_op_convertible, detect.is_detected_convertible.
  rewrite detected_t_name_t.
  destruct (name_t L o Operands) as [Result|]; simpl.
  - split; [by exists Result|]. by intros (? & [= <-] & ?).
  - rewrite Hnone. split; [done|]. by intros (? & ? & ?).
Qed.

Lemma op_impl_void (o : operator) (Operands : list ty) :
  optrait.op_impl L o Operands void =
    match name_t L o Operands with
    | Some Result =>
        optrait.with_is_nothrow (noexcept_expr L o Operands)
          (optrait.operator_info L Result Operands)
    | None => optrait.operator_base Operands
    end.
Proof. unfold optrait.op_impl. by destruct (name_t L o Operands). Qed.

(** What the trait's [is_convertible] member computes: whether [To] converts
    to the result type. *)
Lemma op_impl_is_convertible (o : operator) (To : ty) (Operands : list ty) :
  optrait.is_convertible (optrait.op_impl L o Operands void) To = true ↔
    ∃ Result, name_t L o Operands = Some Result
              ∧ std_is_convertible L To Result = true.
Proof.
  rewrite op_impl_void.
  destruct (name_t L o Operands) as [Result|]; simpl.
  - split; [by exists Result|]. by intros (? & [= <-] & ?).
  - split; [done|]. by intros (? & ? & ?).
Qed.

(** [op_call] reports detection only for a call whose result type is [void],
    and counts the arguments either way. *)
Lemma op_call_is_detected (Target : ty) (Args : list ty) (ct : optrait.call_trait) :
  optrait.op_call L Target Args = Some ct →
  (optrait.is_detected (optrait.trait ct) = true ↔
     name_t L call (Target :: Args) = Some void)
  ∧ optrait.argument_count ct = N.of_nat (length Args)
  ∧ optrait.argument_types ct = Args
  ∧ optrait.target_type ct = Target.
Proof.
  unfold optrait.op_call, optrait.op_call_impl.
  destruct (name_t L call (Target :: Args)) as [pattern|] eqn:Hcall.
  - destruct (is_same pattern void) eqn:Hsame.
    + apply is_same_true in Hsame as ->.
      case_decide; [|done]. intros [= <-]. simpl. done.
    + assert (pattern ≠ void) as Hne.
      { intros ->. by rewrite is_same_refl in Hsame. }
      unfold tuple_element_t, meta.tuple_skip_t. change 1 with (N.of_nat 1).
      rewrite tuple_skip_impl_drop. simpl.
      intros [= <-]. simpl.
      unfold tuple_size_v. rewrite drop_0.
      split; [|done]. split; [done|]. by intros [= ->].
  - unfold tuple_element_t, meta.tuple_skip_t. change 1 with (N.of_nat 1).
    rewrite tuple_skip_impl_drop. simpl.
    intros [= <-]. simpl.
    unfold tuple_size_v. by rewrite drop_0.
Qed.
End operator_facts.

(** C7: in the fragment [cxx], [int + int] is well-formed with result [int],
    and [int] converts to [X] without throwing; [has_op_convertible_plus]
    answers [true], while the trait [op_plus<int, int>] answers [false] from
    both [is_convertible<X>] and [is_nothrow_convertible<X>], which ask whether
    [X] converts to [int]. *)
Theorem operator_info_converts_backwards :
  name_t cxx plus [int; int] = Some int
  ∧ std_is_convertible cxx int X = true
  ∧ detect.std_is_nothrow_convertible
      (std_is_convertible cxx) (noexcept_static_cast cxx) int X = true
  ∧ op.has_op_convertible cxx plus X [int; int] = true
  ∧ op.has_op_nothrow_convertible cxx plus X [int; int] = true
  ∧ optrait.is_detected (optrait.op cxx plus [int; int]) = true
  ∧ optrait.is_convertible (optrait.op cxx plus [int; int]) X = false
  ∧ optrait.is_nothrow_convertible (optrait.op cxx plus [int; int]) X = false
  ∧ std_is_convertible cxx X int = false.
Proof. vm_compute. by split_and!. Qed.

(** C8: in the fragment [cxx], calling [int_fn] with an [int] is well-formed
    and returns [int]; [has_op_call] answers [true], while the trait [op_call]
    instantiates with [is_detected] false; its argument count is 1. *)
Theorem op_call_misses_non_void_calls :
  name_t cxx call [int_fn; int] = Some int
  ∧ op.has_op_call cxx int_fn [int] = true
  ∧ (λ ct, optrait.is_detected (optrait.trait ct)) <$> optrait.op_call cxx int_fn [int]
      = Some false
  ∧ optrait.argument_count <$> optrait.op_call cxx int_fn [int] = Some 1.
Proof. vm_compute. by split_and!. Qed.

(** * Further properties of the code *)

(** ** Index sequences *)

Lemma size_add_add (n a b : size_t) :
  size_add (size_add n b) a = size_add n (size_add a b).
Proof.
  unfold size_add. assert (SIZE_MODULUS ≠ 0) as Hm by done.
  rewrite N.Div0.add_mod_idemp_l, N.Div0.add_mod_idemp_r. f_equal. lia.
Qed.

Lemma size_mul_mul (n a b : size_t) :
  size_mul (size_mul n b) a = size_mul n (size_mul a b).
Proof.
  unfold size_mul.
  rewrite N.Div0.mul_mod_idemp_l, N.Div0.mul_mod_idemp_r. f_equal. lia.
Qed.

Lemma size_mul_add (n a k : size_t) :
  size_mul (size_add n a) k = size_add (size_mul n k) (size_mul a k).
Proof.
  unfold size_mul, size_add.
  rewrite N.Div0.mul_mod_idemp_l, <- N.Div0.add_mod. f_equal. lia.
Qed.

(** X1: shifting and scaling index sequences compose in std::size_t
    arithmetic, wrap-around included: two shifts are the shift by the wrapped
    sum, two scalings the scaling by the wrapped product, and scaling a shifted
    sequence is shifting the scaled one by the scaled offset. *)
Theorem shift_scale_compose (a b : size_t) (Seq : list size_t) :
  indices.shift_index_sequence_t a (indices.shift_index_sequence_t b Seq)
    = indices.shift_index_sequence_t (size_add a b) Seq
  ∧ indices.scale_index_sequence_t a (indices.scale_index_sequence_t b Seq)
    = indices.scale_index_sequence_t (size_mul a b) Seq
  ∧ indices.scale_index_sequence_t a (indices.shift_index_sequence_t b Seq)
    = indices.shift_index_sequence_t (size_mul b a) (indices.scale_index_sequence_t a Seq).
Proof.
  unfold indices.shift_index_sequence_t, indices.scale_index_sequence_t,
    indices.map_index_sequence_t, indices.shift_index_impl, indices.scale_index_impl.
  rewrite <- !list_fmap_compose.
  split_and!; apply list_fmap_ext; intros i n _; simpl.
  - apply size_add_add.
  - apply size_mul_mul.
  - apply size_mul_add.
Qed.

(** X2: an index range that ends within std::size_t has [Length] entries and
    its [i]-th entry is [Start + i]: it is [Start, Start+1, ..., Start+Length-1]. *)
Theorem make_index_range_entries (Start Length : size_t) :
  Start + Length ≤ SIZE_MODULUS →
  length (indices.make_index_range Start Length) = N.to_nat Length
  ∧ ∀ i : size_t, i < Length →
      indices.make_index_range Start Length !! N.to_nat i = Some (Start + i).
Proof.
  intros Hfit. rewrite make_index_range_seq by done.
  rewrite length_fmap, length_seq. split; [done|].
  intros i Hi. rewrite list_lookup_fmap, lookup_seq_lt by lia.
  simpl. f_equal. lia.
Qed.

Lemma make_index_range_entries_witness :
  length (indices.make_index_range 3 3) = N.to_nat 3
  ∧ ∀ i : size_t, i < 3 → indices.make_index_range 3 3 !! N.to_nat i = Some (3 + i).
Proof.
  apply (make_index_range_entries 3 3).
  vm_compute. intros H. discriminate H.
Defined.

(** X3: an index range splits at any point: the range of [n + m] entries from
    [Start] is the range of [n] entries from [Start] followed by the range of
    [m] entries from the wrapped [Start + n]. *)
Theorem make_index_range_split (Start n m : size_t) :
  indices.make_index_range Start (n + m)
    = indices.make_index_range Start n
      ++ indices.make_index_range (size_add Start n) m.
Proof.
  unfold indices.make_index_range, indices.shift_index_sequence_t,
    indices.map_index_sequence_t, indices.make_index_sequence.
  rewrite N2Nat.inj_add, seq_app, !fmap_app. f_equal.
  rewrite <- (Nat.add_0_r (0 + N.to_nat n)%nat).
  rewrite <- fmap_add_seq, <- !list_fmap_compose.
  apply list_fmap_ext. intros i x _. simpl.
  unfold indices.shift_index_impl, size_add.
  rewrite N.Div0.add_mod_idemp_r. f_equal. lia.
Qed.

(** ** Predicates over argument lists *)

(** X4: [any] holds exactly when some argument satisfies the predicate and
    [all] exactly when every argument does, so that [all] of a predicate is the
    negation of [any] of its complement; on no arguments [any] is false and
    [all] is true. *)
Theorem any_all_quantify (Pred : ty → bool) (Args : list ty) :
  (functional.any_v Pred Args = true ↔ ∃ T, T ∈ Args ∧ Pred T = true)
  ∧ (functional.all_v Pred Args = true ↔ ∀ T, T ∈ Args → Pred T = true)
  ∧ functional.all_v Pred Args = negb (functional.any_v (λ T, negb (Pred T)) Args).
Proof.
  unfold functional.any_v, functional.all_v, functional.any, functional.all.
  induction Args as [|Head Tail (IHany & IHall & IHdual)]; simpl.
  - split_and!; [| |done].
    + split; [done|]. intros (T & HT & _). by apply elem_of_nil in HT.
    + split; [|done]. intros _ T HT. by apply elem_of_nil in HT.
  - destruct (Pred Head) eqn:HP; simpl; split_and!.
    + split; [|done]. intros _. exists Head. split; [apply elem_of_cons; by left|done].
    + rewrite IHall. split.
      * intros H T [->|HT]%elem_of_cons; [done|by apply H].
      * intros H T HT. apply H, elem_of_cons. by right.
    + done.
    + rewrite IHany. split.
      * intros (T & HT & HPT). exists T. split; [apply elem_of_cons; by right|done].
      * intros (T & [->|HT]%elem_of_cons & HPT); [congruence|by exists T].
    + split; [done|]. intros H. rewrite <- HP. apply H, elem_of_cons. by left.
    + done.
Qed.

(** ** Searching a tuple type *)

Lemma meta_first_impl_first_match (Pred : ty → bool) (Offset : size_t) (Tuple : list ty) :
  Offset + tuple_size_v Tuple < SIZE_MODULUS →
  meta.first_impl Pred Offset Tuple =
    match first_match Pred Tuple with
    | Some i => meta.IndexHelper true (Offset + i)
    | None => meta.IndexHelper false (Offset + tuple_size_v Tuple)
    end.
Proof.
  revert Offset. unfold tuple_size_v.
  induction Tuple as [|Head Tail IH]; intros Offset Hfit; simpl in *.
  - f_equal. lia.
  - destruct (Pred Head).
    + f_equal. lia.
    + rewrite size_add_small by lia. rewrite IH by lia.
      destruct (first_match Pred Tail) as [i|]; simpl; f_equal; lia.
Qed.

(** X5: [first] searches a tuple type from the left: its [value] says whether
    some element type satisfies the predicate, and then [index] is the position
    of the first one; when none does, [index] is the size of the tuple. *)
Theorem meta_first_smallest (Pred : ty → bool) (Tuple : list ty) :
  tuple_size_v Tuple < SIZE_MODULUS →
  let r := meta.first Pred Tuple in
  (meta.value r = true ↔ ∃ T, T ∈ Tuple ∧ Pred T = true)
  ∧ (meta.value r = true →
       (∃ T, tuple_element_t (meta.index r) Tuple = Some T ∧ Pred T = true)
       ∧ ∀ (j : size_t) (U : ty),
           j < meta.index r → tuple_element_t j Tuple = Some U → Pred U = false)
  ∧ (meta.value r = false → meta.index r = tuple_size_v Tuple).
Proof.
  intros Hfit r. subst r. unfold meta.first.
  rewrite meta_first_impl_first_match by lia.
  destruct (first_match Pred Tuple) as [i|] eqn:Hm; simpl.
  - split_and!; [|intros _|done].
    + split; [intros _|done]. apply first_match_is_Some. by exists i.
    + apply first_match_Some in Hm as [Hat Hbefore].
      split; [done|]. intros j U Hj. apply Hbefore. lia.
  - split_and!; [|done|done].
    split; [done|]. intros Hex. apply first_match_is_Some in Hex as [i Hi]. congruence.
Qed.

Lemma meta_first_smallest_witness :
  let r := meta.first (is_same (LRef int)) [int; LRef int; RRef int; LRef int] in
  (meta.value r = true ↔
     ∃ T, T ∈ [int; LRef int; RRef int; LRef int] ∧ is_same (LRef int) T = true)
  ∧ (meta.value r = true →
       (∃ T, tuple_element_t (meta.index r) [int; LRef int; RRef int; LRef int] = Some T
             ∧ is_same (LRef int) T = true)
       ∧ ∀ (j : size_t) (U : ty),
           j < meta.index r →
           tuple_element_t j [int; LRef int; RRef int; LRef int] = Some U →
           is_same (LRef int) U = false)
  ∧ (meta.value r = false →
       meta.index r = tuple_size_v [int; LRef int; RRef int; LRef int]).
Proof.
  apply (meta_first_smallest (is_same (LRef int)) [int; LRef int; RRef int; LRef int]).
  vm_compute. reflexivity.
Defined.

(** X6: [find] tells whether a type occurs in a tuple type, and when it does
    its [index] is the first position that holds exactly that type. *)
Theorem meta_find_first_occurrence (T : ty) (Tuple : list ty) :
  tuple_size_v Tuple < SIZE_MODULUS →
  (meta.value (meta.find T Tuple) = true ↔ T ∈ Tuple)
  ∧ (T ∈ Tuple →
       tuple_element_t (meta.index (meta.find T Tuple)) Tuple = Some T
       ∧ ∀ j : size_t, j < meta.index (meta.find T Tuple) →
           tuple_element_t j Tuple ≠ Some T).
Proof.
  intros Hfit. unfold meta.find, meta.first.
  rewrite meta_first_impl_first_match by lia.
  destruct (first_match (is_same T) Tuple) as [i|] eqn:Hm; simpl.
  - apply first_match_Some in Hm as [(U & HU & Hsame) Hbefore].
    apply is_same_true in Hsame as <-.
    split.
    + split; [intros _|done]. by eapply list_elem_of_lookup_2.
    + intros _. split; [done|]. intros j Hj Hat.
      assert (is_same T T = false) as Hno by (eapply (Hbefore (N.to_nat j)); [lia|done]).
      by rewrite is_same_refl in Hno.
  - split.
    + split; [done|]. intros Hin.
      assert (is_same T T = false) as Hno by (eapply first_match_None; done).
      by rewrite is_same_refl in Hno.
    + intros Hin.
      assert (is_same T T = false) as Hno by (eapply first_match_None; done).
      by rewrite is_same_refl in Hno.
Qed.

Lemma meta_find_first_occurrence_witness :
  (meta.value (meta.find short [int; short; short]) = true ↔ short ∈ [int; short; short])
  ∧ (short ∈ [int; short; short] →
       tuple_element_t (meta.index (meta.find short [int; short; short])) [int; short; short]
         = Some short
       ∧ ∀ j : size_t, j < meta.index (meta.find short [int; short; short]) →
           tuple_element_t j [int; short; short] ≠ Some short).
Proof.
  apply (meta_find_first_occurrence short [int; short; short]).
  vm_compute. reflexivity.
Defined.

(** ** Restructuring tuple types *)

(** X7: [tuple_cat_t] of any number of tuple types is the tuple type of all
    their element types in order, the flattening of the list of operands; so
    grouping the operands does not matter, 0-tuples among them contribute
    nothing, and the element types of the leading operands keep their
    positions. *)
Theorem tuple_cat_flattens (Ls Rs : list (list ty)) :
  meta.tuple_cat_t Ls = concat Ls
  ∧ meta.tuple_cat_t (Ls ++ Rs) = meta.tuple_cat_t Ls ++ meta.tuple_cat_t Rs
  ∧ meta.tuple_cat_t (Ls ++ Rs)
      = meta.tuple_cat_t [meta.tuple_cat_t Ls; meta.tuple_cat_t Rs]
  ∧ meta.tuple_cat_t (Ls ++ [[]] ++ Rs) = meta.tuple_cat_t (Ls ++ Rs)
  ∧ ∀ (i : nat) (T : ty),
      meta.tuple_cat_t Ls !! i = Some T → meta.tuple_cat_t (Ls ++ Rs) !! i = Some T.
Proof.
  unfold meta.tuple_cat_t. rewrite !tuple_cat_impl_concat, !concat_app. simpl.
  rewrite app_nil_r. split_and!; try done.
  intros i T Hi. by apply lookup_app_l_Some.
Qed.

(** X8: flipping a tuple type reverses it: the result has the same size, its
    [i]-th element type is the input's element type [size - 1 - i], and
    flipping twice gives the input back. *)
Theorem tuple_flip_involutive (Tuple : list ty) :
  meta.tuple_flip_t (meta.tuple_flip_t Tuple) = Tuple
  ∧ tuple_size_v (meta.tuple_flip_t Tuple) = tuple_size_v Tuple
  ∧ ∀ i : size_t, i < tuple_size_v Tuple →
      tuple_element_t i (meta.tuple_flip_t Tuple)
        = tuple_element_t (tuple_size_v Tuple - 1 - i) Tuple.
Proof.
  unfold meta.tuple_flip_t, tuple_size_v, tuple_element_t.
  rewrite !tuple_flip_impl_reverse, reverse_involutive, length_reverse.
  split_and!; try done.
  intros i Hi. rewrite reverse_lookup by lia. f_equal. lia.
Qed.

Lemma lookup_concat_replicate {A} (k j : nat) (l : list A) :
  (j < k * length l)%nat →
  concat (replicate k l) !! j = l !! (j mod length l)%nat.
Proof.
  revert j. induction k as [|k IH]; intros j Hj; simpl in *; [lia|].
  destruct (decide (j < length l)%nat) as [Hlt|Hge].
  - rewrite lookup_app_l by done. by rewrite Nat.mod_small.
  - rewrite lookup_app_r by lia. rewrite IH by lia. f_equal.
    replace j with (j - length l + 1 * length l)%nat at 2 by lia.
    by rewrite Nat.Div0.mod_add.
Qed.

Lemma tuple_dup_impl_replicate (k : nat) (Tuple : list ty) :
  meta.tuple_dup_impl (N.of_nat k) Tuple = concat (replicate k Tuple).
Proof.
  induction k as [|k IH].
  - simpl. by simp tuple_dup_impl.
  - rewrite Nat2N.inj_succ, tuple_dup_impl_succ, IH. done.
Qed.

(** X9: [tuple_dup_t] of [n] is [n] copies of the tuple type one after the
    other: its size is [n] times the input's, element [i] is the input's
    element [i mod size], and duplicating [n + m] times is the concatenation
    of duplicating [n] and [m] times. *)
Theorem tuple_dup_copies (n m : size_t) (Tuple : list ty) :
  meta.tuple_dup_t n Tuple = concat (replicate (N.to_nat n) Tuple)
  ∧ tuple_size_v (meta.tuple_dup_t n Tuple) = n * tuple_size_v Tuple
  ∧ meta.tuple_dup_t (n + m) Tuple
      = meta.tuple_cat_t [meta.tuple_dup_t n Tuple; meta.tuple_dup_t m Tuple]
  ∧ ∀ i : size_t, i < n * tuple_size_v Tuple →
      tuple_element_t i (meta.tuple_dup_t n Tuple)
        = tuple_element_t (i mod tuple_size_v Tuple) Tuple.
Proof.
  unfold meta.tuple_dup_t, meta.tuple_cat_t, tuple_size_v, tuple_element_t.
  rewrite tuple_cat_impl_concat.
  rewrite <- (N2Nat.id n), <- (N2Nat.id m), <- Nat2N.inj_add, !tuple_dup_impl_replicate.
  rewrite !Nat2N.id. simpl. rewrite app_nil_r.
  split_and!.
  - done.
  - rewrite length_concat, fmap_replicate, sum_list_replicate. lia.
  - by rewrite replicate_add, concat_app.
  - intros i Hi.
    assert (length Tuple ≠ 0)%nat as Hne by (intros E; rewrite E in Hi; lia).
    rewrite lookup_concat_replicate by lia. f_equal.
    rewrite N2Nat.inj_mod. by rewrite Nat2N.id.
Qed.

(** X10: [tuple_skip_t], [tuple_take_t] and [tuple_slice_t] have a result
    exactly when what they ask for lies within the tuple type: [n ≤ size] for
    skipping and taking, [Start + Length ≤ size] for slicing; a slice of
    length zero that starts beyond the end has none. *)
Theorem tuple_skip_take_slice_defined (n Start Length : size_t) (Tuple : list ty) :
  (is_Some (meta.tuple_skip_t n Tuple) ↔ n ≤ tuple_size_v Tuple)
  ∧ (is_Some (meta.tuple_take_t n Tuple) ↔ n ≤ tuple_size_v Tuple)
  ∧ (is_Some (meta.tuple_slice_t Start Length Tuple)
       ↔ Start + Length ≤ tuple_size_v Tuple).
Proof.
  split_and!; split.
  - intros [ks H]. by apply tuple_skip_t_Some in H as [? _].
  - intros H. eexists. by apply tuple_skip_t_Some.
  - intros [ks H]. by apply tuple_take_t_Some in H as [? _].
  - intros H. eexists. by apply tuple_take_t_Some.
  - intros [ks H]. by apply tuple_slice_t_Some in H as [? _].
  - intros H. eexists. by apply tuple_slice_t_Some.
Qed.

(** X11: for [n] within the tuple type, taking [n] and skipping [n] split it
    in two: the taken part has size [n], the skipped part the rest, and their
    concatenation is the tuple type again. *)
Theorem tuple_take_skip_round_trip (n : size_t) (Tuple : list ty) :
  n ≤ tuple_size_v Tuple →
  ∃ front back,
    meta.tuple_take_t n Tuple = Some front
    ∧ meta.tuple_skip_t n Tuple = Some back
    ∧ meta.tuple_cat_t [front; back] = Tuple
    ∧ tuple_size_v front = n
    ∧ tuple_size_v back = tuple_size_v Tuple - n.
Proof.
  intros Hn. exists (take (N.to_nat n) Tuple), (drop (N.to_nat n) Tuple).
  split_and!.
  - by apply tuple_take_t_Some.
  - by apply tuple_skip_t_Some.
  - unfold meta.tuple_cat_t. rewrite tuple_cat_impl_concat. simpl.
    by rewrite app_nil_r, take_drop.
  - unfold tuple_size_v in *. rewrite length_take. lia.
  - unfold tuple_size_v in *. rewrite length_drop. lia.
Qed.

Lemma tuple_take_skip_round_trip_witness :
  ∃ front back,
    meta.tuple_take_t 1 [int; short; long] = Some front
    ∧ meta.tuple_skip_t 1 [int; short; long] = Some back
    ∧ meta.tuple_cat_t [front; back] = [int; short; long]
    ∧ tuple_size_v front = 1
    ∧ tuple_size_v back = tuple_size_v [int; short; long] - 1.
Proof.
  apply (tuple_take_skip_round_trip 1 [int; short; long]).
  vm_compute. intros H. discriminate H.
Defined.

Lemma tuple_filter_impl_succ (Pred : ty → bool) (n : size_t) (Tuple : list ty) :
  meta.tuple_filter_impl Pred (N.succ n) Tuple =
    pred ← meta.tuple_filter_impl Pred n Tuple;
    cur ← tuple_element_t n Tuple;
    Some (pred ++ if Pred cur then [cur] else []).
Proof.
  destruct (N.succ n) as [|p] eqn:E; [lia|].
  simp tuple_filter_impl. replace (N.pos p - 1) with n by lia.
  destruct (meta.tuple_filter_impl Pred n Tuple) as [pred|]; simpl; [|done].
  destruct (tuple_element_t n Tuple) as [cur|]; simpl; [|done].
  rewrite tuple_cat_impl_concat. simpl. by rewrite app_nil_r.
Qed.

Lemma tuple_filter_impl_prefix (Pred : ty → bool) (k : nat) (Tuple : list ty) :
  (k ≤ length Tuple)%nat →
  meta.tuple_filter_impl Pred (N.of_nat k) Tuple = Some (filter Pred (take k Tuple)).
Proof.
  induction k as [|k IH]; intros Hk.
  - simpl. by simp tuple_filter_impl.
  - rewrite Nat2N.inj_succ, tuple_filter_impl_succ, IH by lia. simpl.
    destruct (lookup_lt_is_Some_2 Tuple k) as [cur Hcur]; [lia|].
    unfold tuple_element_t. rewrite Nat2N.id, Hcur. simpl.
    rewrite (take_S_r _ _ _ Hcur), filter_app. do 2 f_equal.
    rewrite filter_cons, filter_nil. by destruct (Pred cur).
Qed.

(** X12: [tuple_filter_t] always has a result: the element types that
    satisfy the predicate, in their original order.  Every element of the
    result satisfies the predicate, and filtering again changes nothing. *)
Theorem tuple_filter_keeps_matches (Pred : ty → bool) (Tuple : list ty) :
  meta.tuple_filter_t Pred Tuple = Some (filter Pred Tuple)
  ∧ (∀ T, T ∈ filter Pred Tuple ↔ T ∈ Tuple ∧ Pred T = true)
  ∧ meta.tuple_filter_t Pred Tuple ≫= meta.tuple_filter_t Pred
      = meta.tuple_filter_t Pred Tuple.
Proof.
  assert (∀ Ts, meta.tuple_filter_t Pred Ts = Some (filter Pred Ts)) as Hflt.
  { intros Ts. unfold meta.tuple_filter_t, tuple_size_v.
    rewrite tuple_filter_impl_prefix by done. by rewrite firstn_all. }
  split_and!.
  - apply Hflt.
  - intros T. rewrite list_elem_of_filter. split; intros [? ?]; split; try done.
    + by apply Is_true_true.
    + by apply Is_true_true.
  - rewrite Hflt. simpl. rewrite Hflt. f_equal.
    induction Tuple as [|Head Tail IH]; [done|].
    rewrite filter_cons. destruct (decide (Pred Head)) as [HP|HP]; [|done].
    rewrite filter_cons. destruct (decide (Pred Head)); [|done]. by f_equal.
Qed.

(** X13: the right fold of a tuple type visits the element types from the
    last to the first, starting from [Init]:
    [Fn<...Fn<Fn<Init, t_(N-1)>, t_(N-2)>..., t_0>].  It always has a result,
    [Init] on the 0-tuple, and it is the left fold of the flipped tuple type. *)
Theorem tuple_foldr_right_to_left (Fn : ty → ty → ty) (Init : ty) (Tuple : list ty) :
  meta.tuple_foldr_t Fn Init Tuple = Some (foldr (λ T acc, Fn acc T) Init Tuple)
  ∧ meta.tuple_foldl_t Fn Init Tuple = Some (fold_left Fn Tuple Init)
  ∧ meta.tuple_foldr_t Fn Init (meta.tuple_flip_t Tuple) = meta.tuple_foldl_t Fn Init Tuple
  ∧ meta.tuple_foldr_t Fn Init [] = Some Init.
Proof.
  assert (∀ Ts, meta.tuple_foldl_t Fn Init Ts = Some (fold_left Fn Ts Init)) as Hl.
  { intros Ts. unfold meta.tuple_foldl_t, meta.tuple_cat_t.
    rewrite tuple_cat_impl_concat. simpl. rewrite app_nil_r.
    apply tuple_reduce_t_fold_left. }
  unfold meta.tuple_foldr_t, meta.tuple_flip_t.
  rewrite !Hl, !tuple_flip_impl_reverse, reverse_involutive.
  split_and!; try done.
  f_equal. induction Tuple as [|Head Tail IH]; [done|].
  rewrite reverse_cons, fold_left_app. simpl. by rewrite IH.
Qed.

(** X14: [tuple_map_t] applies the template to every element type and
    commutes with restructuring: mapping a concatenation, a flipped, a picked
    or a filtered tuple type is concatenating, flipping, picking or filtering
    the mapped ones (for a filter whose predicate is asked about the mapped
    types). *)
Theorem tuple_map_commutes (Fn : ty → ty) (Pred : ty → bool) (Ls Rs : list ty) (Ns : list size_t) :
  meta.tuple_map_t Fn (meta.tuple_cat_t [Ls; Rs])
    = meta.tuple_cat_t [meta.tuple_map_t Fn Ls; meta.tuple_map_t Fn Rs]
  ∧ meta.tuple_map_t Fn (meta.tuple_flip_t Ls) = meta.tuple_flip_t (meta.tuple_map_t Fn Ls)
  ∧ meta.tuple_map_t Fn <$> meta.tuple_pick_t Ls Ns
      = meta.tuple_pick_t (meta.tuple_map_t Fn Ls) Ns
  ∧ meta.tuple_map_t Fn <$> meta.tuple_filter_t (λ T, Pred (Fn T)) Ls
      = meta.tuple_filter_t Pred (meta.tuple_map_t Fn Ls).
Proof.
  unfold meta.tuple_map_t, meta.tuple_map_impl, meta.tuple_cat_t, meta.tuple_flip_t,
    meta.tuple_pick_t.
  rewrite !tuple_cat_impl_concat, !tuple_flip_impl_reverse. simpl.
  rewrite !app_nil_r. split_and!.
  - by rewrite fmap_app.
  - by rewrite fmap_reverse.
  - induction Ns as [|Head Tail IH]; simpl; [done|].
    rewrite <- IH. unfold tuple_element_t. rewrite list_lookup_fmap.
    destruct (meta.tuple_pick_impl Ls Tail) as [suffix|]; simpl; [|done].
    destruct (Ls !! N.to_nat Head) as [e|]; simpl; [|done].
    rewrite !tuple_cat_impl_concat. simpl. by rewrite fmap_app.
  - unfold meta.tuple_filter_t, tuple_size_v.
    rewrite length_fmap, !tuple_filter_impl_prefix by (rewrite ?length_fmap; done).
    rewrite !firstn_all. simpl. f_equal.
    rewrite <- (length_fmap Fn Ls), firstn_all.
    induction Ls as [|Head Tail IH]; [done|].
    rewrite fmap_cons, !filter_cons. simpl.
    destruct (decide (Pred (Fn Head))); simpl; by rewrite <- IH.
Qed.

(** ** Restructuring tuple objects *)

Lemma reads_owned_once_NoDup {V} (Ns : list size_t) (t : list (tuple.element V)) :
  NoDup Ns → reads_owned_once Ns t.
Proof. intros Hnd j k i e Hj Hk _ _. by eapply NoDup_lookup. Qed.

Lemma reads_owned_once_references {V} (Ns : list size_t) (t : list (tuple.element V)) :
  Forall (λ e, is_Some (tuple.address_of e)) t → reads_owned_once Ns t.
Proof.
  intros Href j k i e _ _ Hget Hown.
  rewrite Forall_forall in Href.
  destruct (Href e) as [a Ha]; [by eapply list_elem_of_lookup_2|]. congruence.
Qed.


(** X16: picking from a picked tuple is one pick with the composed indices:
    [pick<Ns...>(pick<Ms...>(t))] is [pick<Ms[Ns]...>(t)], and it fails to
    compile exactly when some index of [Ns] is not below the number of [Ms].
    This is for picks that read no owned element twice, and the composed pick
    then reads none twice either. *)
Theorem pick_of_pick {V} (Ms Ns : list size_t) (t r : list (tuple.element V)) :
  tuple.pick Ms t = Some r →
  reads_owned_once Ms t →
  reads_owned_once Ns r →
  tuple.pick Ns r = (Is ← mapM (λ i, Ms !! N.to_nat i) Ns; tuple.pick Is t)
  ∧ ∀ Is, mapM (λ i, Ms !! N.to_nat i) Ns = Some Is → reads_owned_once Is t.
Proof.
  unfold tuple.pick. intros Hr Hms Hns. split.
  - clear Hns. induction Ns as [|Head Tail IH]; [done|].
    rewrite pick_f_cons, IH. simpl.
    destruct (Ms !! N.to_nat Head) as [i|] eqn:Hi; simpl.
    + unfold tuple.get at 1. rewrite (pick_f_lookup _ _ _ _ _ Hr Hi).
      destruct (mapM (λ i, Ms !! N.to_nat i) Tail) as [Is|]; simpl.
      * symmetry. apply (pick_f_cons i Is t).
      * by destruct (tuple.get i t).
    + apply lookup_ge_None in Hi.
      apply pick_f_length in Hr.
      unfold tuple.get. rewrite (lookup_ge_None_2 r) by lia. done.
  - intros Is HIs j k i e Hj Hk Hget Hown.
    apply mapM_Some in HIs.
    destruct (Forall2_lookup_r _ _ _ _ _ HIs Hj) as (n1 & Hn1 & Hm1).
    destruct (Forall2_lookup_r _ _ _ _ _ HIs Hk) as (n2 & Hn2 & Hm2).
    assert (n1 = n2) as <-.
    { apply N2Nat.inj. by apply (Hms _ _ i e). }
    apply (Hns j k n1 e); try done.
    unfold tuple.get. by rewrite (pick_f_lookup _ _ _ _ _ Hr Hm1).
Qed.

Lemma pick_of_pick_witness :
  tuple.pick [0; 2; 1; 0] [tuple.Element (LRef int) (tuple.Refers 100);
                           tuple.Element int (tuple.Holds 7%Z);
                           tuple.Element (LRef int) (tuple.Refers 100);
                           tuple.Element (RRef int) (tuple.Refers 200)]
    = (Is ← mapM (λ i, [1; 0; 1; 2] !! N.to_nat i) [0; 2; 1; 0];
       tuple.pick Is tuple_mixed)
  ∧ ∀ Is, mapM (λ i, [1; 0; 1; 2] !! N.to_nat i) [0; 2; 1; 0] = Some Is →
      reads_owned_once Is tuple_mixed.
Proof.
  apply (pick_of_pick [1; 0; 1; 2] [0; 2; 1; 0] tuple_mixed).
  - reflexivity.
  - intros j k i e Hj Hk Hget Hown.
    destruct j as [|[|[|[|j]]]]; destruct k as [|[|[|[|k]]]];
      simpl in Hj, Hk; simplify_eq; try done;
      cbv in Hget; simplify_eq; cbv in Hown; done.
  - intros j k i e Hj Hk Hget Hown.
    destruct j as [|[|[|[|j]]]]; destruct k as [|[|[|[|k]]]];
      simpl in Hj, Hk; simplify_eq; try done;
      cbv in Hget; simplify_eq; cbv in Hown; done.
Defined.


Lemma dup_f_replicate {V} (k : nat) (t : list (tuple.element V)) :
  tuple.dup_f (N.of_nat k) t = concat (replicate k t).
Proof.
  induction k as [|k IH].
  - simpl. by simp dup_f.
  - rewrite Nat2N.inj_succ, dup_f_succ, IH. done.
Qed.

(** X18: for a tuple of references, value-level [dup] of [n] is [n] copies
    of the tuple one after the other: [n] times the size, element [i] being the
    input's element [i mod size], so that every copy of an element aliases the
    same storage, and [dup<n + m>] is [dup<n>] followed by [dup<m>]. *)
Theorem dup_copies {V} (n m : size_t) (t : list (tuple.element V)) :
  Forall (λ e, is_Some (tuple.address_of e)) t →
  tuple_size_v (tuple.dup n t) = n * tuple_size_v t
  ∧ tuple.dup (n + m) t = tuple.std_tuple_cat [tuple.dup n t; tuple.dup m t]
  ∧ ∀ i : size_t, i < n * tuple_size_v t →
      tuple.get i (tuple.dup n t) = tuple.get (i mod tuple_size_v t) t
      ∧ is_Some (tuple.get i (tuple.dup n t) ≫= tuple.address_of).
Proof.
  intros Href.
  unfold tuple.dup, tuple.std_tuple_cat, tuple_size_v, tuple.get.
  rewrite <- (N2Nat.id n), <- (N2Nat.id m), <- Nat2N.inj_add, !dup_f_replicate.
  simpl. rewrite app_nil_r.
  split_and!.
  - rewrite length_concat, fmap_replicate, sum_list_replicate. lia.
  - by rewrite replicate_add, concat_app.
  - intros i Hi.
    assert (length t ≠ 0)%nat as Hne by (intros E; rewrite E in Hi; lia).
    rewrite lookup_concat_replicate by lia.
    assert (N.to_nat (i mod N.of_nat (length t)) = (N.to_nat i mod length t)%nat) as ->.
    { rewrite N2Nat.inj_mod. by rewrite Nat2N.id. }
    split; [done|].
    destruct (lookup_lt_is_Some_2 t (N.to_nat i mod length t)) as [e He].
    { by apply Nat.mod_upper_bound. }
    rewrite He. simpl. rewrite Forall_forall in Href.
    apply Href. by eapply list_elem_of_lookup_2.
Qed.

Lemma dup_copies_witness :
  tuple_size_v (tuple.dup 2 tuple_ab) = 2 * tuple_size_v tuple_ab
  ∧ tuple.dup (2 + 1) tuple_ab
      = tuple.std_tuple_cat [tuple.dup 2 tuple_ab; tuple.dup 1 tuple_ab]
  ∧ ∀ i : size_t, i < 2 * tuple_size_v tuple_ab →
      tuple.get i (tuple.dup 2 tuple_ab) = tuple.get (i mod tuple_size_v tuple_ab) tuple_ab
      ∧ is_Some (tuple.get i (tuple.dup 2 tuple_ab) ≫= tuple.address_of).
Proof.
  apply (dup_copies 2 1 tuple_ab).
  repeat (apply Forall_cons; split; [by eexists|]).
  apply Forall_nil. done.
Defined.





(** ** Folding and reducing *)

(** X21: folding a concatenation is folding its first part and then folding
    the second part from that result, the user function's effects happening
    in that order; reducing a concatenation whose first part is not empty is
    reducing the first part and then folding the second. *)
Theorem fold_over_concat {A St} (fn : A → A → St → A * St) (init : A)
    (front back : list A) (s : St) :
  tuple.fold fn init (tuple.std_tuple_cat [front; back]) s
    = ('(acc, s') ← tuple.fold fn init front s; tuple.fold fn acc back s')
  ∧ (front ≠ [] →
       tuple.reduce fn (tuple.std_tuple_cat [front; back]) s
         = ('(acc, s') ← tuple.reduce fn front s; tuple.fold fn acc back s')).
Proof.
  unfold tuple.fold, tuple.reduce, tuple.std_tuple_cat. simpl. rewrite app_nil_r.
  split.
  - rewrite !fold_f_left_assoc. simpl. unfold left_assoc. rewrite fold_left_app.
    destruct (fold_left _ front (init, s)) as [acc s'].
    by rewrite fold_f_left_assoc.
  - destruct front as [|x front]; [done|]. intros _. simpl.
    rewrite !reduce_f_left_assoc. simpl. unfold left_assoc. rewrite fold_left_app.
    destruct (fold_left _ front (x, s)) as [acc s'].
    by rewrite fold_f_left_assoc.
Qed.

Lemma tuple_reduce_impl_zero (Fn : ty → ty → ty) (Tuple : list ty) :
  meta.tuple_reduce_impl Fn 0 Tuple = None.
Proof. rewrite meta.tuple_reduce_impl_equation_1. split_decide. Qed.

(** X22: [reduce] and [tuple_reduce_t] have a result exactly for a non-empty
    tuple, while [fold] and [tuple_fold_t] have one for every tuple, the
    0-tuple included. *)
Theorem reduce_needs_an_element {A St} (fn : A → A → St → A * St) (init : A)
    (t : list A) (s : St) (Fn : ty → ty → ty) (Init : ty) (Tuple : list ty) :
  (is_Some (tuple.reduce fn t s) ↔ t ≠ [])
  ∧ (is_Some (meta.tuple_reduce_t Fn Tuple) ↔ Tuple ≠ [])
  ∧ is_Some (tuple.fold fn init t s)
  ∧ is_Some (meta.tuple_fold_t Fn Init Tuple).
Proof.
  split_and!.
  - unfold tuple.reduce. destruct t as [|x xs].
    + unfold tuple.reduce_f. simpl. rewrite reduce_impl_zero.
      split; [by intros [? ?]|done].
    + rewrite reduce_f_left_assoc. split; [done|by eexists].
  - destruct Tuple as [|T Ts].
    + unfold meta.tuple_reduce_t. simpl. rewrite tuple_reduce_impl_zero.
      split; [by intros [? ?]|done].
    + rewrite tuple_reduce_t_fold_left. split; [done|by eexists].
  - unfold tuple.fold. rewrite fold_f_left_assoc. by eexists.
  - unfold meta.tuple_fold_t, meta.tuple_cat_t. rewrite tuple_cat_impl_concat. simpl.
    rewrite tuple_reduce_t_fold_left. by eexists.
Qed.

(** ** Detection and operator traits *)

(** X23: [is_detected_exact<T, Op, Args...>] holds when [Op<Args...>] is
    well-formed and is exactly [T], and also when it is ill-formed and [T] is
    [nonesuch]; in no other case.  So for [T] other than [nonesuch] it implies
    detection, and an undetected query is exactly [nonesuch]. *)
Theorem is_detected_exact_iff (T : ty) (Op : detect.template) (Args : list ty) :
  (detect.is_detected_exact T Op Args = true
     ↔ Op Args = Some T ∨ (Op Args = None ∧ T = detect.nonesuch))
  ∧ (T ≠ detect.nonesuch → detect.is_detected_exact T Op Args = true →
       detect.is_detected Op Args = true)
  ∧ (detect.is_detected Op Args = false →
       detect.is_detected_exact detect.nonesuch Op Args = true).
Proof.
  unfold detect.is_detected_exact, detect.detected_t, detect.detected_or_t,
    detect.is_detected.
  rewrite !is_same_true, !detect_impl_void.
  destruct (Op Args) as [instance|]; simpl; split_and!; try done.
  - split; [intros ->; by left|]. by intros [[= ->]|[? _]].
  - split; [intros <-; by right|]. by intros [?|[_ ->]].
Qed.

(** X24: for every operator other than the call operator, given as many
    operand types as its template takes, the [op_*] trait and the [has_op_*]
    query agree on detection; the trait's [result_type] is the type of the
    operator expression, its [arity] counts the operands after the default
    [Rhs = Lhs] is filled in, and [is_nothrow] is false without detection. *)
Theorem trait_detects_what_has_op_detects (L : language) (o : operator) (Operands : list ty) :
  match shape o with
  | Unary => length Operands = 1%nat
  | Binary => length Operands = 1%nat ∨ length Operands = 2%nat
  | Subscript => length Operands = 2%nat
  | Call => False
  end →
  let tr := optrait.op L o Operands in
  optrait.is_detected tr = op.has_op L o Operands
  ∧ optrait.result_type tr = name_t L o Operands
  ∧ optrait.arity tr = match shape o with Binary => 2 | _ => tuple_size_v Operands end
  ∧ optrait.is_nothrow tr
      = op.has_op L o Operands && noexcept_expr L o (optrait.operand_types tr).
Proof.
  intros Hcount tr. subst tr. unfold op.has_op, detect.is_detected.
  rewrite detect_impl_void. unfold optrait.op.
  destruct (shape o) eqn:Hshape; try done.
  - destruct Operands as [|Arg [|? ?]]; try done.
    rewrite op_impl_void. by destruct (name_t L o [Arg]).
  - destruct Operands as [|Lhs [|Rhs [|? ?]]]; try (by destruct Hcount).
    + rewrite op_impl_void. unfold name_t. rewrite Hshape.
      by destruct (decltype_expr L o [Lhs; Lhs]).
    + rewrite op_impl_void. by destruct (name_t L o [Lhs; Rhs]).
  - destruct Operands as [|T [|Sub [|? ?]]]; try done.
    rewrite op_impl_void. by destruct (name_t L o [T; Sub]).
Qed.

Lemma trait_detects_what_has_op_detects_witness :
  let tr := optrait.op cxx plus [int] in
  optrait.is_detected tr = op.has_op cxx plus [int]
  ∧ optrait.result_type tr = name_t cxx plus [int]
  ∧ optrait.arity tr = match shape plus with Binary => 2 | _ => tuple_size_v [int] end
  ∧ optrait.is_nothrow tr
      = op.has_op cxx plus [int] && noexcept_expr cxx plus (optrait.operand_types tr).
Proof.
  apply (trait_detects_what_has_op_detects cxx plus [int]).
  simpl. left. reflexivity.
Defined.

(** ** Predicates and tuple types together *)

Lemma filter_all_iff {A} (P : A → bool) (l : list A) :
  filter P l = l ↔ ∀ x, x ∈ l → P x = true.
Proof.
  induction l as [|x l IH].
  - split; [|done]. intros _ y Hy. by apply elem_of_nil in Hy.
  - rewrite filter_cons. destruct (decide (P x)) as [HP|HP].
    + apply Is_true_true in HP. split.
      * intros [= Hl]. intros y [->|Hy]%elem_of_cons; [done|]. by apply IH.
      * intros H. f_equal. apply IH. intros y Hy. apply H, elem_of_cons. by right.
    + split.
      * intros Hl. pose proof (length_filter P l) as Hlen.
        rewrite Hl in Hlen. simpl in Hlen. lia.
      * intros H. exfalso. apply HP, Is_true_true, H, elem_of_cons. by left.
Qed.

Lemma filter_none_iff {A} (P : A → bool) (l : list A) :
  filter P l = [] ↔ ∀ x, x ∈ l → P x = false.
Proof.
  induction l as [|x l IH].
  - split; [|done]. intros _ y Hy. by apply elem_of_nil in Hy.
  - rewrite filter_cons. destruct (decide (P x)) as [HP|HP].
    + split; [done|]. intros H. apply Is_true_true in HP.
      rewrite (H x) in HP; [done|]. apply elem_of_cons. by left.
    + apply Is_true_false_1 in HP. rewrite IH. split.
      * intros H y [->|Hy]%elem_of_cons; [done|by apply H].
      * intros H y Hy. apply H, elem_of_cons. by right.
Qed.

(** X25: the searches and the quantifiers agree.  [first<Pred, Tuple>::value]
    is [any_v<Pred, Ts...>] over the element types [Ts] of the tuple type;
    [tuple_filter_t] gives the tuple type back exactly when [all_v] holds and
    the 0-tuple exactly when [any_v] does not, so filtering by [tautology]
    keeps everything and filtering by [contradiction] nothing. *)
Theorem first_filter_any_all (Pred : ty → bool) (Tuple : list ty) :
  meta.value (meta.first Pred Tuple) = functional.any_v Pred Tuple
  ∧ (meta.tuple_filter_t Pred Tuple = Some Tuple
       ↔ functional.all_v Pred Tuple = true)
  ∧ (meta.tuple_filter_t Pred Tuple = Some []
       ↔ functional.any_v Pred Tuple = false)
  ∧ meta.tuple_filter_t (λ T, functional.tautology [T]) Tuple = Some Tuple
  ∧ meta.tuple_filter_t (λ T, functional.contradiction [T]) Tuple = Some [].
Proof.
  assert (∀ P Ts, meta.tuple_filter_t P Ts = Some (filter P Ts)) as Hflt.
  { intros P Ts. unfold meta.tuple_filter_t, tuple_size_v.
    rewrite tuple_filter_impl_prefix by done. by rewrite firstn_all. }
  assert (∀ Ts, functional.all_impl Pred Ts = true ↔ ∀ T, T ∈ Ts → Pred T = true) as Hall.
  { induction Ts as [|Head Tail IH]; simpl.
    - split; [|done]. intros _ T HT. by apply elem_of_nil in HT.
    - destruct (Pred Head) eqn:HP.
      + rewrite IH. split.
        * intros H T [->|HT]%elem_of_cons; [done|by apply H].
        * intros H T HT. apply H, elem_of_cons. by right.
      + split; [done|]. intros H. rewrite <- HP. apply H, elem_of_cons. by left. }
  assert (∀ Ts, functional.any_impl Pred Ts = false ↔ ∀ T, T ∈ Ts → Pred T = false) as Hany.
  { induction Ts as [|Head Tail IH]; simpl.
    - split; [|done]. intros _ T HT. by apply elem_of_nil in HT.
    - destruct (Pred Head) eqn:HP.
      + split; [done|]. intros H. rewrite <- HP. apply H, elem_of_cons. by left.
      + rewrite IH. split.
        * intros H T [->|HT]%elem_of_cons; [done|by apply H].
        * intros H T HT. apply H, elem_of_cons. by right. }
  unfold functional.any_v, functional.all_v, functional.any, functional.all.
  rewrite !Hflt. split_and!.
  - unfold meta.first. generalize 0 as Offset.
    induction Tuple as [|Head Tail IH]; intros Offset; simpl; [done|].
    destruct (Pred Head); [done|]. apply IH.
  - rewrite Hall, <- filter_all_iff. split; [by intros [= ->]|by intros ->].
  - rewrite Hany, <- filter_none_iff. split; [by intros [= ->]|by intros ->].
  - f_equal. by apply filter_all_iff.
  - f_equal. by apply filter_none_iff.
Qed.
